(** * The Capacities client gateway (src/client/capacities.ts)

    A shallow embedding of the [CapacitiesClient] class, its [RateLimiter]
    and the [CapacitiesAPIError] it throws, followed by the properties the
    specification states about them.

    Conventions.
    - JavaScript numbers that hold millisecond timestamps, request counters
      and HTTP status codes are integers far below 2^53; they are modelled
      by [Z].
    - JavaScript strings are modelled by [string]; every string literal of
      the source is ASCII.
    - The [Map] of the rate limiter is a [gmap] from the endpoint name to
      the window object stored under it.  [window.requests++] mutates the
      object that the map holds, so it is modelled as an update of the map
      entry.
    - An [async] function is a computation that runs without interruption
      up to its next [await] (the event loop is single threaded).  The
      points where the source awaits are explicit constructors of [Async];
      the scheduler [exec] interleaves any number of calls at these points
      only. *)

From Stdlib Require Import ZArith String Ascii List Lia Bool.
From stdpp Require Import base option list gmap strings pretty.

Local Open Scope string_scope.
Local Open Scope Z_scope.

(* ===================================================================== *)
(** ** The rate limiter *)
(* ===================================================================== *)

(** The type ["general" | "search" | "weblink"]. *)
Inductive EndpointType := general | search | weblink.

#[global] Instance EndpointType_eq_dec : EqDecision EndpointType.
Proof. solve_decision. Defined.

(** The string under which a category is stored in [windows]. *)
Definition key (e : EndpointType) : string :=
  match e with
  | general => "general"
  | search => "search"
  | weblink => "weblink"
  end.

Record Limit := { maxRequests : Z; windowMs : Z }.

(** [private limits = { general: ..., search: ..., weblink: ... }] *)
Definition limits (e : EndpointType) : Limit :=
  match e with
  | general => {| maxRequests := 5; windowMs := 60000 |}
  | search => {| maxRequests := 120; windowMs := 60000 |}
  | weblink => {| maxRequests := 10; windowMs := 60000 |}
  end.

(** [{ requests: number; resetTime: number }] *)
Record Window := { requests : Z; resetTime : Z }.

#[global] Instance Window_eq_dec : EqDecision Window.
Proof. solve_decision. Defined.

(** What one run of the body of [waitForSlot] does before it gives the
    control back: it returns ([Granted]), or it starts a timer of
    [waitTime] milliseconds and awaits it ([Suspended waitTime]); the
    continuation of the latter is [this.waitForSlot(endpoint)] again. *)
Inductive Outcome := Granted | Suspended (waitTime : Z).

#[global] Instance Outcome_eq_dec : EqDecision Outcome.
Proof. solve_decision. Defined.

(** The body of [waitForSlot], from its first line to the [return] or to
    the [await], with [now] the value of [Date.now()]. *)
Definition waitForSlot (endpoint : EndpointType) (now : Z)
    (windows : gmap string Window) : gmap string Window * Outcome :=
  let limit := limits endpoint in
  let fresh := {| requests := 1; resetTime := now + windowMs limit |} in
  match windows !! key endpoint with
  | None => (<[key endpoint := fresh]> windows, Granted)
  | Some window =>
      if bool_decide (resetTime window ≤ now) then
        (<[key endpoint := fresh]> windows, Granted)
      else if bool_decide (maxRequests limit ≤ requests window) then
        (windows, Suspended (resetTime window - now))
      else
        (<[key endpoint := {| requests := requests window + 1;
                              resetTime := resetTime window |}]> windows,
         Granted)
  end.

(** A sequence of calls, each given by its category and the time at which
    its body runs; the outcomes are listed in the order of the calls. *)
Fixpoint waitForSlot_calls (calls : list (EndpointType * Z))
    (windows : gmap string Window) : gmap string Window * list Outcome :=
  match calls with
  | [] => (windows, [])
  | (endpoint, now) :: rest =>
      let '(windows1, o) := waitForSlot endpoint now windows in
      let '(windows2, os) := waitForSlot_calls rest windows1 in
      (windows2, o :: os)
  end.

(* ===================================================================== *)
(** ** JavaScript values and [JSON.stringify] *)
(* ===================================================================== *)

(** The values that request bodies are built from and that
    [response.json()] yields.  An object lists its members in insertion
    order; a number is integer valued (no member that the client writes is
    a number). *)
#[warnings="-register-all"]
Inductive JSValue :=
| JUndefined
| JNull
| JBool (b : bool)
| JNum (n : Z)
| JStr (s : string)
| JArr (items : list JSValue)
| JObj (members : list (string * JSValue)).

(** The operands of [||] are tested with [ToBoolean]. *)
Definition truthy (v : JSValue) : bool :=
  match v with
  | JUndefined | JNull => false
  | JBool b => b
  | JNum n => negb (n =? 0)
  | JStr s => negb (String.eqb s "")
  | JArr _ | JObj _ => true
  end.

(** [a || b] *)
Definition js_or (a b : JSValue) : JSValue := if truthy a then a else b.

(** An optional property of an options object: [undefined] when omitted. *)
Definition optional {A} (f : A → JSValue) (o : option A) : JSValue :=
  match o with
  | Some a => f a
  | None => JUndefined
  end.

(** An array of strings. *)
Definition strings (l : list string) : JSValue := JArr (JStr <$> l).

(** The member of an object with the given name. *)
Fixpoint find_member (name : string) (members : list (string * JSValue))
    : option JSValue :=
  match members with
  | [] => None
  | (k, v) :: rest => if String.eqb k name then Some v else find_member name rest
  end.

(** The double quote and the backslash, which a string literal of this
    file cannot hold next to a quote. *)
Definition dquote : string := String (ascii_of_nat 34) EmptyString.
Definition backslash : string := String (ascii_of_nat 92) EmptyString.

Definition hex_digit (n : nat) : string :=
  String (ascii_of_nat (if (n <? 10)%nat then 48 + n else 87 + n)) EmptyString.

(** One character of a string, as [QuoteJSONString] writes it. *)
Definition quote_char (c : ascii) : string :=
  let n := nat_of_ascii c in
  if (n =? 8)%nat then backslash +:+ "b"
  else if (n =? 9)%nat then backslash +:+ "t"
  else if (n =? 10)%nat then backslash +:+ "n"
  else if (n =? 12)%nat then backslash +:+ "f"
  else if (n =? 13)%nat then backslash +:+ "r"
  else if (n =? 34)%nat then backslash +:+ dquote
  else if (n =? 92)%nat then backslash +:+ backslash
  else if (n <? 32)%nat then
    backslash +:+ "u00" +:+ hex_digit (n / 16) +:+ hex_digit (n mod 16)
  else String c EmptyString.

Fixpoint quote_chars (s : string) : string :=
  match s with
  | EmptyString => EmptyString
  | String c rest => quote_char c +:+ quote_chars rest
  end.

Definition QuoteJSONString (s : string) : string :=
  dquote +:+ quote_chars s +:+ dquote.

(** The text [s] between double quotes, as it stands in a JSON text. *)
Definition quoted (s : string) : string := dquote +:+ s +:+ dquote.

Fixpoint join (sep : string) (parts : list string) : string :=
  match parts with
  | [] => ""
  | [p] => p
  | p :: rest => p +:+ sep +:+ join sep rest
  end.

(** The text of a JSON object with the given members, of one member, and
    of a JSON array. *)
Definition json_object (members : list string) : string :=
  "{" +:+ join "," members +:+ "}".
Definition json_member (name text : string) : string :=
  QuoteJSONString name +:+ ":" +:+ text.
Definition json_array (items : list string) : string :=
  "[" +:+ join "," items +:+ "]".

(** [SerializeJSONProperty]: [None] is the [undefined] that makes
    [SerializeJSONObject] leave a member out and that [SerializeJSONArray]
    writes as [null]. *)
Fixpoint SerializeJSONProperty (v : JSValue) : option string :=
  match v with
  | JUndefined => None
  | JNull => Some "null"
  | JBool b => Some (if b then "true" else "false")
  | JNum n => Some (pretty n)
  | JStr s => Some (QuoteJSONString s)
  | JArr items =>
      Some (json_array
              (map (λ x, default "null" (SerializeJSONProperty x)) items))
  | JObj members =>
      Some (json_object
              (omap (λ m, json_member (fst m) <$> SerializeJSONProperty (snd m))
                    members))
  end.

(** [JSON.stringify(v)] *)
Definition JSON_stringify (v : JSValue) : option string :=
  SerializeJSONProperty v.

(* ===================================================================== *)
(** ** Exceptions, responses and asynchronous computations *)
(* ===================================================================== *)

(** [class CapacitiesAPIError extends Error]: [code], [message] and the
    optional [details], which no [throw] of the client supplies. *)
Record CapacitiesAPIError := {
  code : string;
  message : string;
  details : JSValue
}.

(** [new CapacitiesAPIError(code, message)] *)
Definition new_CapacitiesAPIError (c m : string) : CapacitiesAPIError :=
  {| code := c; message := m; details := JUndefined |}.

(** What a computation can throw: an error that the client constructs, or
    an exception of the platform (the reason with which [fetch] rejects, a
    [TypeError] of a property access). *)
Inductive Exn :=
| ApiError (e : CapacitiesAPIError)
| PlatformError (name message : string).

(** What the client reads of a [Response]: [status],
    [headers.get('content-type')], [headers.get('content-length')] ([None]
    for [null]) and what [response.json()] settles to ([None] when it
    rejects, as it does on a body that is not JSON). *)
Record Response := {
  status : Z;
  contentType : option string;
  contentLength : option string;
  json : option JSValue
}.

(** [response.ok] *)
Definition ok (r : Response) : bool :=
  bool_decide (200 ≤ status r ≤ 299).

(** The promise of [fetch] settles with a response or rejects. *)
Inductive FetchOutcome :=
| FetchResponse (r : Response)
| FetchRejected (e : Exn).

(** [RequestInit], as far as the client uses it. *)
Record RequestInit := {
  method : option string;
  body : option string;
  headers : gmap string string
}.

(** [options = {}] *)
Definition no_options : RequestInit :=
  {| method := None; body := None; headers := ∅ |}.

(** The two arguments of [fetch]. *)
Record Request := {
  url : string;
  init : RequestInit
}.

(** A computation of an [async] function of the client, cut at its
    [await]s. *)
Inductive Async (A : Type) :=
| Return (a : A)
| Throw (e : Exn)
| AwaitSlot (endpoint : EndpointType) (k : Async A)
| AwaitFetch (request : Request) (k : FetchOutcome → Async A).

Arguments Return {A} a.
Arguments Throw {A} e.
Arguments AwaitSlot {A} endpoint k.
Arguments AwaitFetch {A} request k.

Fixpoint Async_bind {A B} (f : A → Async B) (p : Async A) : Async B :=
  match p with
  | Return a => f a
  | Throw e => Throw e
  | AwaitSlot endpoint k => AwaitSlot endpoint (Async_bind f k)
  | AwaitFetch request k => AwaitFetch request (λ o, Async_bind f (k o))
  end.

#[global] Instance Async_ret : MRet Async := @Return.
#[global] Instance Async_mbind : MBind Async := @Async_bind.

(** How a computation settles. *)
Inductive Settled (A : Type) :=
| Fulfilled (a : A)
| Rejected (e : Exn).

Arguments Fulfilled {A} a.
Arguments Rejected {A} e.

(** The computation run to its end, every slot granted and every [fetch]
    settling as [o]. *)
Fixpoint settle {A} (o : FetchOutcome) (p : Async A) : Settled A :=
  match p with
  | Return a => Fulfilled a
  | Throw e => Rejected e
  | AwaitSlot _ k => settle o k
  | AwaitFetch _ k => settle o (k o)
  end.

(** The first request that the computation hands to [fetch]. *)
Fixpoint dispatched {A} (p : Async A) : option Request :=
  match p with
  | Return _ | Throw _ => None
  | AwaitSlot _ k => dispatched k
  | AwaitFetch request _ => Some request
  end.

(** The category of the first slot that the computation waits for. *)
Definition throttled {A} (p : Async A) : option EndpointType :=
  match p with
  | AwaitSlot endpoint _ => Some endpoint
  | _ => None
  end.

(* ===================================================================== *)
(** ** The client *)
(* ===================================================================== *)

(** [haystack.includes(needle)] *)
Fixpoint includes (needle haystack : string) : bool :=
  String.prefix needle haystack ||
  match haystack with
  | EmptyString => false
  | String _ rest => includes needle rest
  end.

(** The fields that the constructor copies from its [config]; the rate
    limiter it creates is the [windows] component of [Sys] below. *)
Record CapacitiesClient := {
  baseUrl : string;
  apiToken : string
}.

Definition getEndpointType (endpoint : string) : EndpointType :=
  if includes "/search" endpoint then search
  else if includes "/save-weblink" endpoint then weblink
  else general.

(** [{ success: true }] *)
Definition success_marker : JSValue := JObj [("success", JBool true)].

(** The second argument of [fetch]:
    [{...options, headers: {'Authorization': ..., 'Content-Type': ...,
    ...options.headers}}].  In an object literal a later member replaces
    an earlier one of the same name, so the members of [options.headers]
    win. *)
Definition fetch_init (this : CapacitiesClient) (options : RequestInit)
    : RequestInit :=
  {| method := method options;
     body := body options;
     headers :=
       headers options ∪
       <["Authorization" := "Bearer " +:+ apiToken this]>
         (<["Content-Type" := "application/json"]> ∅) |}.

(** [if (!response.ok) { ... }]: the error thrown for a response that is
    not ok. *)
Definition status_error (r : Response) : CapacitiesAPIError :=
  if bool_decide (status r = 429) then
    new_CapacitiesAPIError "RATE_LIMIT_EXCEEDED" "Rate limit exceeded"
  else if bool_decide (status r = 401) then
    new_CapacitiesAPIError "AUTHENTICATION_FAILED" "Invalid API token"
  else
    new_CapacitiesAPIError "API_ERROR" ("API error: " +:+ pretty (status r)).

(** [!contentType?.includes('application/json')] *)
Definition not_json (contentType : option string) : bool :=
  match contentType with
  | None => true
  | Some t => negb (includes "application/json" t)
  end.

(** [makeRequest] from the line after [fetch] to its end, on an ok
    response. *)
Definition normalize (r : Response) : JSValue :=
  if bool_decide (contentLength r = Some "0") || not_json (contentType r)
  then success_marker
  else
    match json r with
    | Some result => result
    | None => success_marker
    end.

(** [makeRequest] from the line after [fetch] to its end. *)
Definition handle_response (r : Response) : Async JSValue :=
  if negb (ok r) then Throw (ApiError (status_error r))
  else Return (normalize r).

Definition makeRequest (this : CapacitiesClient) (endpoint : string)
    (options : RequestInit) : Async JSValue :=
  let endpointType := getEndpointType endpoint in
  AwaitSlot endpointType
    (AwaitFetch
       {| url := baseUrl this +:+ endpoint; init := fetch_init this options |}
       (λ o, match o with
             | FetchRejected e => Throw e
             | FetchResponse response => handle_response response
             end)).

(** [response.name] for a [name] that is not a built-in property of strings
    or arrays, as [spaces] and [results] are not: reading it from
    [undefined] or [null] throws a [TypeError], an object yields its member
    or [undefined], any other value yields [undefined]. *)
Definition get_property (name : string) (v : JSValue) : Async JSValue :=
  match v with
  | JUndefined | JNull =>
      Throw (PlatformError "TypeError"
               ("Cannot read properties of " +:+
                (if v is JNull then "null" else "undefined") +:+
                " (reading '" +:+ name +:+ "')"))
  | JObj members => Return (default JUndefined (find_member name members))
  | _ => Return JUndefined
  end.

Inductive SearchMode := fullText | title.

Definition SearchMode_string (m : SearchMode) : string :=
  match m with
  | fullText => "fullText"
  | title => "title"
  end.

(** [interface SearchOptions] *)
Record SearchOptions := {
  query : string;
  spaceIds : list string;
  mode : option SearchMode;
  structureIds : option (list string)
}.

(** [interface SaveWeblinkOptions] *)
Record SaveWeblinkOptions := {
  w_spaceId : string;
  w_url : string;
  w_title : option string;
  w_description : option string;
  w_tags : option (list string);
  w_notes : option string
}.

(** [interface SaveToDailyNoteOptions] *)
Record SaveToDailyNoteOptions := {
  d_spaceId : string;
  d_content : string;
  d_noTimestamp : option bool
}.

Definition POST (payload : JSValue) : RequestInit :=
  {| method := Some "POST"; body := JSON_stringify payload; headers := ∅ |}.

Definition getSpaces (this : CapacitiesClient) : Async JSValue :=
  response ← makeRequest this "/spaces" no_options;
  get_property "spaces" response.

Definition getSpaceInfo (this : CapacitiesClient) (spaceId : string)
    : Async JSValue :=
  makeRequest this ("/space-info?spaceid=" +:+ spaceId) no_options.

Definition search_payload (options : SearchOptions) : JSValue :=
  JObj [("searchTerm", JStr (query options));
        ("spaceIds", strings (spaceIds options));
        ("mode", js_or (optional (λ m, JStr (SearchMode_string m))
                                 (mode options))
                       (JStr "fullText"));
        ("filterStructureIds", optional strings (structureIds options))].

Definition searchContent (this : CapacitiesClient) (options : SearchOptions)
    : Async JSValue :=
  response ← makeRequest this "/search" (POST (search_payload options));
  get_property "results" response.

Definition weblink_payload (options : SaveWeblinkOptions) : JSValue :=
  JObj [("spaceId", JStr (w_spaceId options));
        ("url", JStr (w_url options));
        ("titleOverwrite", optional JStr (w_title options));
        ("descriptionOverwrite", optional JStr (w_description options));
        ("tags", js_or (optional strings (w_tags options)) (JArr []));
        ("mdText", optional JStr (w_notes options))].

Definition saveWeblink (this : CapacitiesClient)
    (options : SaveWeblinkOptions) : Async JSValue :=
  makeRequest this "/save-weblink" (POST (weblink_payload options)).

Definition daily_note_payload (options : SaveToDailyNoteOptions) : JSValue :=
  JObj [("spaceId", JStr (d_spaceId options));
        ("mdText", JStr (d_content options));
        ("noTimeStamp", js_or (optional JBool (d_noTimestamp options))
                              (JBool false))].

Definition saveToDailyNote (this : CapacitiesClient)
    (options : SaveToDailyNoteOptions) : Async JSValue :=
  makeRequest this "/save-to-daily-note" (POST (daily_note_payload options)).

(** The public methods of the client, with their arguments. *)
Inductive Operation :=
| GetSpaces
| GetSpaceInfo (spaceId : string)
| SearchContent (options : SearchOptions)
| SaveWeblink (options : SaveWeblinkOptions)
| SaveToDailyNote (options : SaveToDailyNoteOptions).

Definition invoke (this : CapacitiesClient) (op : Operation) : Async JSValue :=
  match op with
  | GetSpaces => getSpaces this
  | GetSpaceInfo spaceId => getSpaceInfo this spaceId
  | SearchContent options => searchContent this options
  | SaveWeblink options => saveWeblink this options
  | SaveToDailyNote options => saveToDailyNote this options
  end.

(* ===================================================================== *)
(** ** Concurrent calls on the event loop *)
(* ===================================================================== *)

(** A call of a client method is ready to run its next piece, or it is
    inside [waitForSlot], awaiting the timer that ends at [wakeAt]; [k] is
    what follows the [await this.rateLimiter.waitForSlot(endpoint)]. *)
Inductive Task :=
| Ready (p : Async JSValue)
| Sleeping (endpoint : EndpointType) (wakeAt : Z) (k : Async JSValue).

(** A record of one return of [waitForSlot]: which call was admitted, for
    which category, when, and the [resetTime] of the window that counted
    it.  The list of these records is kept for the statements only; no
    transition reads it. *)
Record Grant := {
  g_task : nat;
  g_endpoint : EndpointType;
  g_time : Z;
  g_window : Z
}.

Record Sys := {
  clock : Z;
  windows : gmap string Window;
  tasks : list Task;
  grants : list Grant
}.

(** The client after its constructor ran, at time [t0]. *)
Definition initial (t0 : Z) : Sys :=
  {| clock := t0; windows := ∅; tasks := []; grants := [] |}.

(** What can happen next: time passes, a method is called, a call runs the
    body of [waitForSlot], a timer fires, a [fetch] settles.  Two things
    are assumed of the platform: the clock that [Date.now()] reads does
    not run backwards, and [setTimeout] does not run its callback before
    the delay has passed on that clock. *)
Inductive Event :=
| Tick (d : Z)
| Spawn (p : Async JSValue)
| Check (i : nat)
| Wake (i : nat)
| Respond (i : nat) (o : FetchOutcome).

(** The [resetTime] of the window stored for [endpoint]. *)
Definition window_reset (endpoint : EndpointType) (ws : gmap string Window)
    : Z :=
  from_option resetTime 0 (ws !! key endpoint).

(** One event; [None] when it cannot happen in [s].  [Check i] is the body
    of [waitForSlot] run by the call [i], at its first call and again at
    each [return this.waitForSlot(endpoint)] after a timer. *)
Definition exec (e : Event) (s : Sys) : option Sys :=
  match e with
  | Tick d =>
      if bool_decide (0 ≤ d) then
        Some {| clock := clock s + d; windows := windows s;
                tasks := tasks s; grants := grants s |}
      else None
  | Spawn p =>
      Some {| clock := clock s; windows := windows s;
              tasks := tasks s ++ [Ready p]; grants := grants s |}
  | Check i =>
      match tasks s !! i with
      | Some (Ready (AwaitSlot endpoint k)) =>
          match waitForSlot endpoint (clock s) (windows s) with
          | (ws, Granted) =>
              Some {| clock := clock s; windows := ws;
                      tasks := <[i := Ready k]> (tasks s);
                      grants := {| g_task := i; g_endpoint := endpoint;
                                   g_time := clock s;
                                   g_window := window_reset endpoint ws |}
                                :: grants s |}
          | (ws, Suspended waitTime) =>
              Some {| clock := clock s; windows := ws;
                      tasks := <[i := Sleeping endpoint (clock s + waitTime) k]>
                                 (tasks s);
                      grants := grants s |}
          end
      | _ => None
      end
  | Wake i =>
      match tasks s !! i with
      | Some (Sleeping endpoint wakeAt k) =>
          if bool_decide (wakeAt ≤ clock s) then
            Some {| clock := clock s; windows := windows s;
                    tasks := <[i := Ready (AwaitSlot endpoint k)]> (tasks s);
                    grants := grants s |}
          else None
      | _ => None
      end
  | Respond i o =>
      match tasks s !! i with
      | Some (Ready (AwaitFetch _ k)) =>
          Some {| clock := clock s; windows := windows s;
                  tasks := <[i := Ready (k o)]> (tasks s);
                  grants := grants s |}
      | _ => None
      end
  end.

(** A schedule, run from [s]; [None] when one of its events cannot
    happen. *)
Fixpoint run (es : list Event) (s : Sys) : option Sys :=
  match es with
  | [] => Some s
  | e :: rest =>
      match exec e s with
      | Some s1 => run rest s1
      | None => None
      end
  end.

(** The admissions of category [endpoint] counted in the window that ends
    at [reset]. *)
Definition admitted (endpoint : EndpointType) (reset : Z) (gs : list Grant)
    : list Grant :=
  filter (λ g, g_endpoint g = endpoint ∧ g_window g = reset) gs.

(** [marker] occurs in [path]. *)
Definition contains (marker path : string) : Prop :=
  ∃ before after, path = before +:+ marker +:+ after.

(** [Array.isArray(v)] *)
Definition is_array (v : JSValue) : bool :=
  match v with
  | JArr _ => true
  | _ => false
  end.


(** What every schedule maintains for the category [e]: the counter of its
    window lies between 1 and the maximum and equals the number of
    admissions counted in that window; no admission was counted in a window
    that ends later than the current one; no window counted more admissions
    than the maximum. *)
Definition counted (e : EndpointType) (ws : gmap string Window)
    (gs : list Grant) : Prop :=
  (∀ w, ws !! key e = Some w →
        1 ≤ requests w ≤ maxRequests (limits e) ∧
        Z.of_nat (length (admitted e (resetTime w) gs)) = requests w) ∧
  (∀ g, g ∈ gs → g_endpoint g = e →
        ∃ w, ws !! key e = Some w ∧ g_window g ≤ resetTime w) ∧
  (∀ reset,
     Z.of_nat (length (admitted e reset gs)) ≤ maxRequests (limits e)).

(** Concrete inputs on which the statements below are instantiated. *)

(** Six calls of [getSpaces] at time 1000; the sixth finds the window of
    [general] full, sleeps for a minute and is admitted in the next
    window. *)
Definition sample_client : CapacitiesClient :=
  {| baseUrl := "https://api.capacities.io"; apiToken := "secret" |}.

Definition sample_schedule : list Event :=
  [Spawn (getSpaces sample_client); Check 0;
   Spawn (getSpaces sample_client); Check 1;
   Spawn (getSpaces sample_client); Check 2;
   Spawn (getSpaces sample_client); Check 3;
   Spawn (getSpaces sample_client); Check 4;
   Spawn (getSpaces sample_client); Check 5;
   Tick 60000; Wake 5; Check 5].

(** Five calls of [general] in the window that the first opens, with a
    call of [search] in between. *)
Definition sample_calls : list (EndpointType * Z) :=
  [(general, 1001); (search, 1002); (general, 2000); (general, 3000);
   (general, 60999)].

Definition sample_window : Window := {| requests := 5; resetTime := 61000 |}.

(** A call that stands before [waitForSlot] while the window of [general]
    is full. *)
Definition sample_full : Sys :=
  {| clock := 1000;
     windows := <[key general := sample_window]> ∅;
     tasks := [Ready (AwaitSlot general (Return JNull))];
     grants := [] |}.

Definition sample_response (code : Z) : Response :=
  {| status := code; contentType := Some "application/json";
     contentLength := Some "0"; json := None |}.

Definition sample_search : SearchOptions :=
  {| query := "x"; spaceIds := ["s1"]; mode := None; structureIds := None |}.

(* ===================================================================== *)
(** ** Further definitions for the rate limiter *)
(* ===================================================================== *)

(** How the windows of the category [e] lie in time, in every reachable
    state.  With [W] the length of a window: the current window was opened
    at most [W] ago; an admission lies in the window that counted it; the
    windows that counted admissions end at least [W] apart, none of them
    after the current one; and every such window holds the admission that
    opened it. *)
Definition spaced (e : EndpointType) (s : Sys) : Prop :=
  let W := windowMs (limits e) in
  (∀ w, windows s !! key e = Some w → resetTime w - W ≤ clock s) ∧
  (∀ g, g ∈ grants s → g_endpoint g = e →
        g_window g - W ≤ g_time g < g_window g) ∧
  (∀ g w, g ∈ grants s → g_endpoint g = e →
          windows s !! key e = Some w →
          g_window g = resetTime w ∨ g_window g + W ≤ resetTime w) ∧
  (∀ g1 g2, g1 ∈ grants s → g2 ∈ grants s →
            g_endpoint g1 = e → g_endpoint g2 = e →
            g_window g1 = g_window g2 ∨
            g_window g1 + W ≤ g_window g2 ∨
            g_window g2 + W ≤ g_window g1) ∧
  (∀ g, g ∈ grants s → g_endpoint g = e →
        ∃ g0, g0 ∈ grants s ∧ g_endpoint g0 = e ∧
              g_window g0 = g_window g ∧ g_time g0 = g_window g - W).

(** The admissions of the category [e] whose time lies between [a] and
    [b]. *)
Definition admitted_between (e : EndpointType) (a b : Z) (gs : list Grant)
    : list Grant :=
  filter (λ g, g_endpoint g = e ∧ a ≤ g_time g ≤ b) gs.

(** A call that only waits for a slot of [e]. *)
Definition slot_call (e : EndpointType) : Async JSValue :=
  AwaitSlot e (Return JNull).

(** [n] calls of [e], the first of which becomes the task [first]; each
    runs the body of [waitForSlot] as soon as it is made. *)
Fixpoint call_and_check (e : EndpointType) (first n : nat) : list Event :=
  match n with
  | O => []
  | S m => Spawn (slot_call e) :: Check first :: call_and_check e (S first) m
  end.

(** A burst across the end of a window: one call opens a window, the rest
    of its budget is used in its last millisecond, and a full budget is
    used in the first millisecond of the next window. *)
Definition burst_schedule (e : EndpointType) : list Event :=
  let n := Z.to_nat (maxRequests (limits e)) in
  call_and_check e 0 1 ++
  [Tick (windowMs (limits e) - 1)] ++
  call_and_check e 1 (n - 1) ++
  [Tick 1] ++
  call_and_check e n n.

(** What a batch of new calls of [e] leaves behind when all of them are
    admitted at once in the window that ends at [reset]. *)
Definition batch_admitted (e : EndpointType) (n : nat) (reset : Z)
    (s s' : Sys) : Prop :=
  clock s' = clock s ∧
  length (tasks s') = (length (tasks s) + n)%nat ∧
  (∀ j, (j < length (tasks s))%nat → tasks s' !! j = tasks s !! j) ∧
  (∀ e', e' ≠ e → windows s' !! key e' = windows s !! key e') ∧
  ∃ new : list Grant, grants s' = (new ++ grants s)%list ∧ length new = n ∧
         Forall (λ g, g_endpoint g = e ∧ g_time g = clock s ∧
                      g_window g = reset ∧
                      (length (tasks s) ≤ g_task g)%nat) new.

(* ===================================================================== *)
(** ** Further definitions for the client *)
(* ===================================================================== *)

(** What a computation awaits: a slot of a category, or the response to a
    request. *)
Inductive Step :=
| WaitSlot (endpoint : EndpointType)
| CallFetch (request : Request).

(** The computation run to its end when the [n]-th call of [fetch] that it
    makes settles as [answers n]: how it settles, and what it awaits on
    the way, in order. *)
Fixpoint settle_nth {A} (answers : nat → FetchOutcome) (n : nat)
    (p : Async A) : Settled A :=
  match p with
  | Return a => Fulfilled a
  | Throw e => Rejected e
  | AwaitSlot _ k => settle_nth answers n k
  | AwaitFetch _ k => settle_nth answers (S n) (k (answers n))
  end.

Fixpoint awaits_nth {A} (answers : nat → FetchOutcome) (n : nat)
    (p : Async A) : list Step :=
  match p with
  | Return _ | Throw _ => []
  | AwaitSlot endpoint k => WaitSlot endpoint :: awaits_nth answers n k
  | AwaitFetch request k =>
      CallFetch request :: awaits_nth answers (S n) (k (answers n))
  end.

(** [try { p } catch (error) { handler }] *)
Fixpoint Async_catch {A} (p : Async A) (handler : Exn → Async A) : Async A :=
  match p with
  | Return a => Return a
  | Throw e => handler e
  | AwaitSlot endpoint k => AwaitSlot endpoint (Async_catch k handler)
  | AwaitFetch request k =>
      AwaitFetch request (λ o, Async_catch (k o) handler)
  end.

(** [new TypeError(m)], as the engine throws it, and [new Error(m)]. *)
Definition TypeError (m : string) : Exn := PlatformError "TypeError" m.
Definition Error (m : string) : Exn := PlatformError "Error" m.

(** [error instanceof Error ? error.message : String(error)]: every
    exception of the model is an [Error]. *)
Definition error_text (error : Exn) : string :=
  match error with
  | ApiError e => message e
  | PlatformError _ m => m
  end.

(* ===================================================================== *)
(** ** src/utils/validation.ts *)
(* ===================================================================== *)

(** The character classes of [uuidRegex]; the flag [i] lets a letter match
    in either case. *)
Definition in_range (lo hi : nat) (c : ascii) : bool :=
  let n := nat_of_ascii c in (lo <=? n)%nat && (n <=? hi)%nat.

(** [[0-9a-f]] *)
Definition hex_class (c : ascii) : bool :=
  in_range 48 57 c || in_range 97 102 c || in_range 65 70 c.

(** [[1-5]] *)
Definition version_class (c : ascii) : bool := in_range 49 53 c.

(** [[89ab]] *)
Definition variant_class (c : ascii) : bool :=
  in_range 56 57 c || in_range 97 98 c || in_range 65 66 c.

(** [-] *)
Definition dash_class (c : ascii) : bool := (nat_of_ascii c =? 45)%nat.

(** [^[0-9a-f]{8}-[0-9a-f]{4}-[1-5][0-9a-f]{3}-[89ab][0-9a-f]{3}-[0-9a-f]{12}$]
    as the sequence of its character classes. *)
Definition uuidRegex : list (ascii → bool) :=
  replicate 8 hex_class ++ [dash_class] ++
  replicate 4 hex_class ++ [dash_class] ++
  [version_class] ++ replicate 3 hex_class ++ [dash_class] ++
  [variant_class] ++ replicate 3 hex_class ++ [dash_class] ++
  replicate 12 hex_class.

(** [regex.test(value)] for a regular expression that is a sequence of
    character classes between [^] and [$]. *)
Fixpoint regex_test (regex : list (ascii → bool)) (value : string) : bool :=
  match regex, value with
  | [], EmptyString => true
  | class :: rest, String c value' => class c && regex_test rest value'
  | _, _ => false
  end.

Definition validateUUID (value : string) : bool :=
  regex_test uuidRegex value.

(** What [validateEnvironment] returns. *)
Record Environment := {
  env_apiToken : string;
  env_baseUrl : string;
  env_logLevel : string
}.

(** [process.env.NAME || fallback] *)
Definition env_or (value : option string) (fallback : string) : string :=
  match value with
  | Some v => if String.eqb v "" then fallback else v
  | None => fallback
  end.

(** [validateEnvironment], with [process.env] as a map from the names of
    the variables that are set to their values. *)
Definition validateEnvironment (env : gmap string string)
    : Settled Environment :=
  let missing :=
    Rejected
      (Error "CAPACITIES_API_TOKEN environment variable is required") in
  match env !! "CAPACITIES_API_TOKEN" with
  | None => missing
  | Some apiToken =>
      if String.eqb apiToken "" then missing
      else
        Fulfilled
          {| env_apiToken := apiToken;
             env_baseUrl := env_or (env !! "CAPACITIES_API_BASE_URL")
                                   "https://api.capacities.io";
             env_logLevel := env_or (env !! "LOG_LEVEL") "info" |}
  end.

(** [new CapacitiesClient({ apiToken: env.apiToken, baseUrl: env.baseUrl })],
    as [main] builds the client. *)
Definition client_of (env : Environment) : CapacitiesClient :=
  {| baseUrl := env_baseUrl env; apiToken := env_apiToken env |}.

(* ===================================================================== *)
(** ** src/tools/smart-search.ts: helpers on search results *)
(* ===================================================================== *)

(** [interface SearchHighlight] and [interface SearchResult], with the
    fields that the helpers read. *)
Record SearchHighlight := { hl_snippets : list string }.

Record SearchResult := {
  res_id : string;
  res_spaceId : string;
  res_structureId : string;
  res_title : string;
  res_highlights : list SearchHighlight
}.

(** The callback of [results.filter] in [deduplicateResults], run over the
    array from left to right with the set [seen] that it updates. *)
Fixpoint deduplicate_from (seen : gset string) (results : list SearchResult)
    : list SearchResult :=
  match results with
  | [] => []
  | result :: rest =>
      if bool_decide (res_id result ∈ seen) then deduplicate_from seen rest
      else result :: deduplicate_from ({[res_id result]} ∪ seen) rest
  end.

Definition deduplicateResults (results : list SearchResult)
    : list SearchResult :=
  deduplicate_from ∅ results.

(** [calculateRelevanceScore]; [toLowerCase] is the method of the
    platform. *)
Definition calculateRelevanceScore (toLowerCase : string → string)
    (result : SearchResult) (query : string) : Z :=
  let queryLower := toLowerCase query in
  let titleLower := toLowerCase (res_title result) in
  let score := 0 in
  let score := if includes queryLower titleLower then score + 10 else score in
  let score := if String.eqb titleLower queryLower then score + 20 else score in
  let score := score + Z.of_nat (length (res_highlights result)) * 2 in
  foldl (λ score highlight,
           score +
           Z.of_nat
             (length (filter (λ snippet,
                                includes queryLower (toLowerCase snippet) = true)
                             (hl_snippets highlight))))
        score (res_highlights result).

(* ===================================================================== *)
(** ** src/tools/search.ts: the tools that call the client *)
(* ===================================================================== *)

(** What a tool returns: the text of its one content item, and [isError]
    ([false] when the property is absent). *)
Record ToolResult := { text : string; isError : bool }.

Definition text_result (t : string) : ToolResult :=
  {| text := t; isError := false |}.
Definition error_result (t : string) : ToolResult :=
  {| text := t; isError := true |}.

(** The line feed of a template literal. *)
Definition nl : string := String (ascii_of_nat 10) EmptyString.

(** [ToString] of a value that came out of [JSON.parse], as a template
    literal applies it.  An array is joined with commas, [null] and
    [undefined] elements giving the empty string.  An object gives
    [[object Object]], unless it has a member named [toString]: that
    member is not a function, and the conversion throws ([None]).  A
    number is printed with all its digits, as JavaScript prints an integer
    of magnitude below [10^21]; no property below depends on the text of a
    number. *)
Fixpoint ToString (v : JSValue) : option string :=
  match v with
  | JUndefined => Some "undefined"
  | JNull => Some "null"
  | JBool b => Some (if b then "true" else "false")
  | JNum n => Some (pretty n)
  | JStr s => Some s
  | JArr items =>
      join "," <$>
        mapM (λ x, match x with
                   | JUndefined | JNull => Some ""
                   | _ => ToString x
                   end) items
  | JObj members =>
      match find_member "toString" members with
      | Some _ => None
      | None => Some "[object Object]"
      end
  end.

Definition to_string (v : JSValue) : Async string :=
  match ToString v with
  | Some s => Return s
  | None => Throw (TypeError "Cannot convert object to primitive value")
  end.

(** The error of the call [receiver.method(...)] when [receiver], written
    [what] in the source, is not an array. *)
Definition not_callable (what method : string) (receiver : JSValue) : Exn :=
  match receiver with
  | JUndefined =>
      TypeError ("Cannot read properties of undefined (reading '" +:+
                 method +:+ "')")
  | JNull =>
      TypeError ("Cannot read properties of null (reading '" +:+
                 method +:+ "')")
  | _ => TypeError (what +:+ "." +:+ method +:+ " is not a function")
  end.

(** The callback of [map], run over the elements from left to right. *)
Fixpoint Async_mapM {A B} (f : A → Async B) (l : list A) : Async (list B) :=
  match l with
  | [] => Return []
  | x :: rest =>
      y ← f x;
      ys ← Async_mapM f rest;
      Return (y :: ys)
  end.

(** [receiver.map(f)] *)
Definition array_map {B} (what : string) (f : JSValue → Async B)
    (receiver : JSValue) : Async (list B) :=
  match receiver with
  | JArr items => Async_mapM f items
  | _ => Throw (not_callable what "map" receiver)
  end.

(** [receiver.join(separator)] *)
Definition array_join (what separator : string) (receiver : JSValue)
    : Async string :=
  match receiver with
  | JArr items =>
      match mapM (λ x, match x with
                       | JUndefined | JNull => Some ""
                       | _ => ToString x
                       end) items with
      | Some parts => Return (join separator parts)
      | None => Throw (TypeError "Cannot convert object to primitive value")
      end
  | _ => Throw (not_callable what "join" receiver)
  end.

(** The template literal with the value of [value.name] in it. *)
Definition property_text (name : string) (value : JSValue) : Async string :=
  v ← get_property name value;
  to_string v.

(** [space => `**${space.title}**\nID: ${space.id}\nIcon: ${space.icon.val}`] *)
Definition format_space (space : JSValue) : Async string :=
  title ← property_text "title" space;
  id ← property_text "id" space;
  icon ← get_property "icon" space;
  val ← property_text "val" icon;
  Return ("**" +:+ title +:+ "**" +:+ nl +:+ "ID: " +:+ id +:+ nl +:+
          "Icon: " +:+ val).

(** The handler of [list_spaces]. *)
Definition list_spaces (client : CapacitiesClient) : Async ToolResult :=
  Async_catch
    (spaces ← getSpaces client;
     lines ← array_map "spaces" format_space spaces;
     Return (text_result
               ("Your Capacities Spaces:" +:+ nl +:+ nl +:+
                join (nl +:+ nl) lines)))
    (λ error,
       Return (error_result
                 ("Failed to retrieve spaces: " +:+ error_text error))).

(** [prop => `- ${prop.name} (${prop.dataType})`] *)
Definition format_property (prop : JSValue) : Async string :=
  name ← property_text "name" prop;
  dataType ← property_text "dataType" prop;
  Return ("- " +:+ name +:+ " (" +:+ dataType +:+ ")").

(** [col => `- ${col.title}`] *)
Definition format_collection (col : JSValue) : Async string :=
  title ← property_text "title" col;
  Return ("- " +:+ title).

(** The callback of [spaceInfo.structures.map]. *)
Definition format_structure (structure : JSValue) : Async string :=
  propertyDefinitions ← get_property "propertyDefinitions" structure;
  properties ← array_map "structure.propertyDefinitions" format_property
                         propertyDefinitions;
  collections ← get_property "collections" structure;
  cols ← array_map "structure.collections" format_collection collections;
  title ← property_text "title" structure;
  pluralName ← property_text "pluralName" structure;
  id ← property_text "id" structure;
  Return ("**" +:+ title +:+ "** (" +:+ pluralName +:+ ")" +:+ nl +:+
          "ID: " +:+ id +:+ nl +:+ nl +:+
          "Properties:" +:+ nl +:+ join nl properties +:+ nl +:+ nl +:+
          "Collections:" +:+ nl +:+ join nl cols).

(** The handler of [get_space_info]. *)
Definition get_space_info (client : CapacitiesClient) (space_id : string)
    : Async ToolResult :=
  if String.eqb space_id "" || negb (validateUUID space_id) then
    Throw (Error ("Invalid space ID: " +:+ space_id))
  else
    Async_catch
      (spaceInfo ← getSpaceInfo client space_id;
       structures ← get_property "structures" spaceInfo;
       parts ← array_map "spaceInfo.structures" format_structure structures;
       Return (text_result
                 ("Space Information:" +:+ nl +:+ nl +:+
                  join (nl +:+ nl +:+ "---" +:+ nl +:+ nl) parts)))
      (λ error,
         Return (error_result
                   ("Failed to get space info: " +:+ error_text error))).

(** [searchContent] as it runs, on whatever values its caller puts into
    the options. *)
Definition searchContent_raw (this : CapacitiesClient)
    (query spaceIds mode structureIds : JSValue) : Async JSValue :=
  response ← makeRequest this "/search"
               (POST (JObj [("searchTerm", query);
                            ("spaceIds", spaceIds);
                            ("mode", js_or mode (JStr "fullText"));
                            ("filterStructureIds", structureIds)]));
  get_property "results" response.

(** [results.length === 0] *)
Definition length_is_zero (results : JSValue) : Async bool :=
  match results with
  | JUndefined =>
      Throw (TypeError "Cannot read properties of undefined (reading 'length')")
  | JNull =>
      Throw (TypeError "Cannot read properties of null (reading 'length')")
  | JArr items => Return (bool_decide (length items = 0%nat))
  | JStr s => Return (String.eqb s "")
  | JObj members =>
      Return match find_member "length" members with
             | Some (JNum n) => n =? 0
             | _ => false
             end
  | _ => Return false
  end.

(** [h => h.snippets.join(" ")] *)
Definition format_highlight (h : JSValue) : Async string :=
  snippets ← get_property "snippets" h;
  array_join "h.snippets" " " snippets.

(** The callback of [results.map] in [search_content]. *)
Definition format_result (result : JSValue) : Async string :=
  hs ← get_property "highlights" result;
  lines ← array_map "result.highlights" format_highlight hs;
  title ← property_text "title" result;
  id ← property_text "id" result;
  structureId ← property_text "structureId" result;
  Return ("**" +:+ title +:+ "**" +:+ nl +:+ "ID: " +:+ id +:+ nl +:+
          "Type: " +:+ structureId +:+ nl +:+ nl +:+
          "Highlights:" +:+ nl +:+ join nl lines +:+ nl).

(** [space_id] is given and not empty. *)
Definition given (space_id : option string) : option string :=
  match space_id with
  | Some id => if String.eqb id "" then None else Some id
  | None => None
  end.

(** The handler of [search_content]. *)
Definition search_content (client : CapacitiesClient) (query : string)
    (space_id : option string) (mode : option SearchMode)
    (objectTypes : option (list string)) : Async ToolResult :=
  if String.eqb query "" then
    Throw (Error "Query is required and must be a string")
  else if match given space_id with
          | Some id => negb (validateUUID id)
          | None => false
          end then
    Throw (Error "Invalid space ID format")
  else
    Async_catch
      (spaces ← getSpaces client;
       searchSpaces ←
         match given space_id with
         | Some id => Return (JArr [JStr id])
         | None =>
             ids ← array_map "spaces" (get_property "id") spaces;
             Return (JArr ids)
         end;
       results ← searchContent_raw client (JStr query) searchSpaces
                   (js_or (optional (λ m, JStr (SearchMode_string m)) mode)
                          (JStr "fullText"))
                   (optional strings objectTypes);
       empty ← length_is_zero results;
       if (empty : bool) then
         Return (text_result
                   ("No results found for " +:+ dquote +:+ query +:+ dquote))
       else
         match results with
         | JArr items =>
             formatted ← Async_mapM format_result items;
             Return (text_result
                       ("Found " +:+ pretty (length items) +:+
                        " results for " +:+ dquote +:+ query +:+ dquote +:+
                        ":" +:+ nl +:+ nl +:+
                        join (nl +:+ "---" +:+ nl) formatted))
         | _ => Throw (not_callable "results" "map" results)
         end)
      (λ error,
         Return (error_result ("Search failed: " +:+ error_text error))).

(** The number of the next call of [fetch] after the computation has run,
    when it starts with the call number [n]. *)
Fixpoint calls_nth {A} (answers : nat → FetchOutcome) (n : nat)
    (p : Async A) : nat :=
  match p with
  | Return _ | Throw _ => n
  | AwaitSlot _ k => calls_nth answers n k
  | AwaitFetch _ k => calls_nth answers (S n) (k (answers n))
  end.

(** A computation that awaits nothing. *)
Definition is_sync {A} (p : Async A) : Prop :=
  match p with
  | Return _ | Throw _ => True
  | _ => False
  end.

(** The request of [getSpaces]. *)
Definition spaces_request (client : CapacitiesClient) : Request :=
  {| url := baseUrl client +:+ "/spaces"; init := fetch_init client no_options |}.

(** A response that [makeRequest] takes for a success without a body. *)
Definition masked (r : Response) : Prop :=
  200 ≤ status r ≤ 299 ∧
  (contentLength r = Some "0" ∨ not_json (contentType r) = true ∨
   json r = None).

(** [interface CapacitiesSpace], and the value that [JSON.parse] makes of
    a space in the body of [/spaces]. *)
Record CapacitiesSpace := {
  space_id : string;
  space_title : string;
  icon_type : string;
  icon_val : string
}.

Definition space_value (space : CapacitiesSpace) : JSValue :=
  JObj [("id", JStr (space_id space));
        ("title", JStr (space_title space));
        ("icon", JObj [("type", JStr (icon_type space));
                       ("val", JStr (icon_val space))])].

(* ===================================================================== *)
(** ** The headers that [fetch] checks *)
(* ===================================================================== *)









(* ===================================================================== *)
(** ** Further sample inputs *)
(* ===================================================================== *)

Definition sample_uuid : string := "123e4567-e89b-42d3-a456-426614174000".

(** A call of [general] that has just been made. *)
Definition sample_waiting : Sys :=
  {| clock := 1000; windows := ∅;
     tasks := [Ready (slot_call general)]; grants := [] |}.

(** A response with the body [null]. *)
Definition sample_null : Response :=
  {| status := 200; contentType := Some "application/json";
     contentLength := None; json := Some JNull |}.

Definition sample_result (id title : string) : SearchResult :=
  {| res_id := id; res_spaceId := "s1"; res_structureId := "RootPage";
     res_title := title; res_highlights := [] |}.

Definition sample_results : list SearchResult :=
  [sample_result "a" "Rust"; sample_result "b" "Rusty things"].

(** Every request is answered with the status 429, and every request with
    the status 200 and no body. *)
Definition rate_limited : nat → FetchOutcome :=
  λ _, FetchResponse (sample_response 429).

Definition no_body : nat → FetchOutcome :=
  λ _, FetchResponse (sample_response 200).


(** Results in which an id is repeated. *)
Definition sample_repeated : list SearchResult :=
  [sample_result "a" "first"; sample_result "b" "other";
   sample_result "a" "second"].

(* ===================================================================== *)
(** ** Properties of the rate limiter *)
(* ===================================================================== *)

Section RateLimiter.

Implicit Types (e : EndpointType) (ws : gmap string Window) (now : Z).

Lemma key_inj e1 e2 : key e1 = key e2 → e1 = e2.
Proof. by destruct e1, e2. Qed.

Lemma limits_positive e :
  1 ≤ maxRequests (limits e) ∧ 0 < windowMs (limits e).
Proof. destruct e; simpl; lia. Qed.

(** The three branches of [waitForSlot]. *)
Lemma waitForSlot_fresh e now ws :
  (ws !! key e = None ∨ ∃ w, ws !! key e = Some w ∧ resetTime w ≤ now) →
  waitForSlot e now ws =
    (<[key e := {| requests := 1;
                   resetTime := now + windowMs (limits e) |}]> ws, Granted).
Proof.
  unfold waitForSlot. intros [-> | (w & -> & Hw)]; [done |].
  by rewrite bool_decide_eq_true_2.
Qed.

Lemma waitForSlot_increment e now ws w :
  ws !! key e = Some w → now < resetTime w →
  requests w < maxRequests (limits e) →
  waitForSlot e now ws =
    (<[key e := {| requests := requests w + 1;
                   resetTime := resetTime w |}]> ws, Granted).
Proof.
  unfold waitForSlot. intros -> Hnow Hreq.
  rewrite bool_decide_eq_false_2; [| lia].
  rewrite bool_decide_eq_false_2; [done | lia].
Qed.

Lemma waitForSlot_exhausted e now ws w :
  ws !! key e = Some w → now < resetTime w →
  maxRequests (limits e) ≤ requests w →
  waitForSlot e now ws = (ws, Suspended (resetTime w - now)).
Proof.
  unfold waitForSlot. intros -> Hnow Hreq.
  rewrite bool_decide_eq_false_2; [| lia].
  by rewrite bool_decide_eq_true_2.
Qed.

(** A call never touches the window of another category. *)
Lemma waitForSlot_other e e' now ws :
  e ≠ e' → (waitForSlot e now ws).1 !! key e' = ws !! key e'.
Proof.
  intros Hne. assert (key e ≠ key e') by (intros ?%key_inj; done).
  unfold waitForSlot. destruct (ws !! key e) as [w |]; simpl.
  - repeat case_bool_decide; simpl; by rewrite ?lookup_insert_ne.
  - by rewrite lookup_insert_ne.
Qed.

(** The case analysis that the proofs below follow. *)
Lemma waitForSlot_cases e now ws :
  (waitForSlot e now ws =
     (<[key e := {| requests := 1;
                    resetTime := now + windowMs (limits e) |}]> ws, Granted) ∧
   (ws !! key e = None ∨ ∃ w, ws !! key e = Some w ∧ resetTime w ≤ now)) ∨
  (∃ w, ws !! key e = Some w ∧ now < resetTime w ∧
        requests w < maxRequests (limits e) ∧
        waitForSlot e now ws =
          (<[key e := {| requests := requests w + 1;
                         resetTime := resetTime w |}]> ws, Granted)) ∨
  (∃ w, ws !! key e = Some w ∧ now < resetTime w ∧
        maxRequests (limits e) ≤ requests w ∧
        waitForSlot e now ws = (ws, Suspended (resetTime w - now))).
Proof.
  destruct (ws !! key e) as [w |] eqn:Hw.
  - destruct (decide (resetTime w ≤ now)).
    + left. split; [apply waitForSlot_fresh |]; eauto.
    + destruct (decide (maxRequests (limits e) ≤ requests w)).
      * right; right. exists w. split_and!; [done | lia | done |].
        apply waitForSlot_exhausted; [done | lia | done].
      * right; left. exists w. split_and!; [done | lia | lia |].
        apply waitForSlot_increment; [done | lia | lia].
  - left. split; [apply waitForSlot_fresh |]; eauto.
Qed.

Lemma waitForSlot_suspended e now ws ws' waitTime :
  waitForSlot e now ws = (ws', Suspended waitTime) → ws' = ws.
Proof.
  destruct (waitForSlot_cases e now ws)
    as [[-> _] | [(w & _ & _ & _ & ->) | (w & _ & _ & _ & ->)]]; congruence.
Qed.

(** A property that every event preserves holds after every schedule. *)
Lemma run_invariant (P : Sys → Prop) :
  (∀ ev s s', P s → exec ev s = Some s' → P s') →
  ∀ es s s', P s → run es s = Some s' → P s'.
Proof.
  intros Hstep es. induction es as [| ev es IH]; intros s s' HP Hrun;
    simpl in Hrun.
  - by simplify_eq.
  - destruct (exec ev s) as [s1 |] eqn:Hexec; [| done]. eauto.
Qed.

Lemma admitted_cons e reset g gs :
  admitted e reset (g :: gs) =
    if decide (g_endpoint g = e ∧ g_window g = reset)
    then g :: admitted e reset gs else admitted e reset gs.
Proof. unfold admitted. by rewrite filter_cons. Qed.

Lemma counted_initial e : counted e ∅ [].
Proof.
  split_and!.
  - intros w Hw. by rewrite lookup_empty in Hw.
  - intros g Hg. by apply elem_of_nil in Hg.
  - intros reset. simpl. pose proof (limits_positive e). lia.
Qed.

(** An admission of another category changes nothing for [e]. *)
Lemma counted_grant_other e e0 i now ws gs :
  e0 ≠ e → counted e ws gs →
  counted e (waitForSlot e0 now ws).1
    ({| g_task := i; g_endpoint := e0; g_time := now;
        g_window := window_reset e0 (waitForSlot e0 now ws).1 |} :: gs).
Proof.
  intros Hne (Hw & Hg & Hmax).
  assert (∀ reset g, g_endpoint g = e0 →
            admitted e reset (g :: gs) = admitted e reset gs) as Hadm.
  { intros reset g Hg0. rewrite admitted_cons.
    rewrite decide_False; [done |]. intros [? _]. congruence. }
  split_and!.
  - intros w. rewrite waitForSlot_other by done. intros Hlook.
    rewrite Hadm by done. by apply Hw.
  - intros g [-> | Hin]%elem_of_cons Hge; [simpl in Hge; congruence |].
    rewrite waitForSlot_other by done. by apply Hg.
  - intros reset. rewrite Hadm by done. apply Hmax.
Qed.

(** An admission of [e] itself: it opens a window later than every window
    that counted an admission, or it is counted in the current window,
    which has room. *)
Lemma counted_grant_same e i now ws ws' gs :
  counted e ws gs → waitForSlot e now ws = (ws', Granted) →
  counted e ws'
    ({| g_task := i; g_endpoint := e; g_time := now;
        g_window := window_reset e ws' |} :: gs).
Proof.
  intros (Hw & Hg & Hmax) Hrun.
  pose proof (limits_positive e) as [Hpos Hms].
  destruct (waitForSlot_cases e now ws)
    as [[Heq Hold] | [(w & Hlook & Hnow & Hreq & Heq) | (w & _ & _ & _ & Heq)]];
    rewrite Heq in Hrun; simplify_eq.
  - (* a fresh window *)
    set (reset := now + windowMs (limits e)).
    assert (∀ g, g ∈ gs → g_endpoint g = e → g_window g < reset) as Hbefore.
    { intros g Hin Hge. destruct (Hg g Hin Hge) as (w & Hlook & Hle).
      destruct Hold as [Hnone | (w' & Hlook' & Hexp)]; simplify_eq. lia. }
    assert (admitted e reset gs = []) as Hnil.
    { apply elem_of_nil_inv. intros g. unfold admitted.
      rewrite list_elem_of_filter. intros [[Hge Hgw] Hin].
      specialize (Hbefore g Hin Hge). lia. }
    unfold window_reset. rewrite lookup_insert_eq. simpl. fold reset.
    split_and!.
    + intros w. rewrite lookup_insert_eq. intros [= <-]. simpl.
      rewrite admitted_cons, decide_True, Hnil by done. simpl. lia.
    + intros g [-> | Hin]%elem_of_cons Hge; rewrite lookup_insert_eq.
      * eexists. split; [done |]. simpl. lia.
      * eexists. split; [done |]. simpl. specialize (Hbefore g Hin Hge). lia.
    + intros r. rewrite admitted_cons. simpl. case_decide as Hd.
      * destruct Hd as [_ <-]. rewrite Hnil. simpl. lia.
      * apply Hmax.
  - (* the current window *)
    destruct (Hw w Hlook) as [Hrange Hcount].
    unfold window_reset. rewrite lookup_insert_eq. simpl.
    split_and!.
    + intros w'. rewrite lookup_insert_eq. intros [= <-]. simpl.
      rewrite admitted_cons, decide_True by done. simpl length. lia.
    + intros g [-> | Hin]%elem_of_cons Hge; rewrite lookup_insert_eq.
      * eexists. split; [done |]. simpl. lia.
      * destruct (Hg g Hin Hge) as (w' & Hlook' & Hle). simplify_eq.
        eexists. split; [done |]. simpl. lia.
    + intros r. rewrite admitted_cons. simpl. case_decide as Hd.
      * destruct Hd as [_ <-]. simpl length. lia.
      * apply Hmax.
Qed.

Lemma counted_exec ev s s' :
  (∀ e, counted e (windows s) (grants s)) → exec ev s = Some s' →
  ∀ e, counted e (windows s') (grants s').
Proof.
  intros Hinv Hexec e.
  destruct ev as [d | p | i | i | i o]; simpl in Hexec.
  - case_bool_decide; simplify_eq. apply Hinv.
  - simplify_eq. apply Hinv.
  - destruct (tasks s !! i) as [[[| | e0 k |] |] |]; try done.
    destruct (waitForSlot e0 (clock s) (windows s)) as [ws [| waitTime]] eqn:Hrun;
      simplify_eq; simpl.
    + destruct (decide (e0 = e)) as [-> | Hne].
      * by eapply counted_grant_same.
      * pose proof (counted_grant_other e e0 i (clock s) (windows s) (grants s)
                      Hne (Hinv e)) as H.
        by rewrite Hrun in H.
    + apply waitForSlot_suspended in Hrun as ->. apply Hinv.
  - destruct (tasks s !! i) as [[| ? wakeAt ?] |]; try done.
    case_bool_decide; simplify_eq. apply Hinv.
  - destruct (tasks s !! i) as [[[| | |] |] |]; try done.
    simplify_eq. apply Hinv.
Qed.

Lemma counted_run es s s' :
  (∀ e, counted e (windows s) (grants s)) → run es s = Some s' →
  ∀ e, counted e (windows s') (grants s').
Proof.
  apply (run_invariant (λ s, ∀ e, counted e (windows s) (grants s))).
  intros ev s0 s1. apply counted_exec.
Qed.

(** C1.  From the state in which the constructor leaves the client, after
    every schedule of calls, timers and responses, and for every category:
    the counter of the window never exceeds [maxRequests] (at any time,
    hence while [now < resetTime]), and no window of the category has
    counted more than [maxRequests] admissions. *)
Theorem window_never_exceeds_max t0 es s e :
  run es (initial t0) = Some s →
  (∀ w, windows s !! key e = Some w →
        requests w ≤ maxRequests (limits e)) ∧
  (∀ reset,
     Z.of_nat (length (admitted e reset (grants s))) ≤ maxRequests (limits e)).
Proof.
  intros Hrun.
  pose proof (counted_run es (initial t0) s
                (λ e, counted_initial e) Hrun e) as (Hw & _ & Hmax).
  split; [| done]. intros w Hlook. destruct (Hw w Hlook). lia.
Qed.

(** While the window of [e] is live, calls of [e] are granted as long as
    the counter has room for all of them; calls of other categories may
    come in between. *)
Lemma calls_granted_in_window e reset calls :
  ∀ ws w,
  ws !! key e = Some w → resetTime w = reset →
  requests w + Z.of_nat (length (filter (λ c, c.1 = e) calls))
    ≤ maxRequests (limits e) →
  Forall (λ c, c.1 = e → c.2 < reset) calls →
  ∀ j t o,
    calls !! j = Some (e, t) →
    (waitForSlot_calls calls ws).2 !! j = Some o → o = Granted.
Proof.
  induction calls as [| [e' t'] rest IH]; intros ws w Hlook Hreset Hroom Hin j t o.
  { by rewrite lookup_nil. }
  apply Forall_cons in Hin as [Hhead Hrest]. simpl in Hhead.
  simpl.
  destruct (waitForSlot e' t' ws) as [ws1 o1] eqn:Hrun.
  destruct (waitForSlot_calls rest ws1) as [ws2 os] eqn:Hcalls. simpl.
  destruct (decide (e' = e)) as [-> | Hne].
  - rewrite filter_cons_True in Hroom by done. simpl length in Hroom.
    specialize (Hhead eq_refl).
    rewrite (waitForSlot_increment e t' ws w) in Hrun by (done || lia).
    simplify_eq. destruct j as [| j]; simpl.
    + by intros _ [= <-].
    + intros Hj Ho. change os with (ws2, os).2 in Ho. rewrite <- Hcalls in Ho.
      eapply IH; [apply lookup_insert_eq | | | | exact Hj | exact Ho];
        [done | simpl; lia | done].
  - rewrite filter_cons_False in Hroom by done.
    destruct j as [| j]; simpl.
    + intros [= -> ->]. done.
    + intros Hj Ho.
      pose proof (waitForSlot_other e' e t' ws Hne) as Hsame.
      rewrite Hrun in Hsame. simpl in Hsame.
      change os with (ws2, os).2 in Ho. rewrite <- Hcalls in Ho.
      eapply (IH ws1 w); [by rewrite Hsame | done | lia | done | exact Hj |].
      exact Ho.
Qed.

(** Every call of a sequence has an outcome. *)
Lemma waitForSlot_calls_length calls ws :
  length (waitForSlot_calls calls ws).2 = length calls.
Proof.
  revert ws. induction calls as [| [e t] rest IH]; intros ws; [done |].
  simpl. destruct (waitForSlot e t ws) as [ws1 o1].
  specialize (IH ws1). destruct (waitForSlot_calls rest ws1) as [ws2 os].
  simpl in *. by rewrite IH.
Qed.

(** C2.  A call of [waitForSlot] returns without waiting when the category
    has no window or its window has expired (it installs a window with
    [requests = 1] that ends [windowMs] later), and when the live window
    has room (it increments the counter).  Hence, when a call at [now]
    opens a window, it and the calls of the category that follow before
    the window ends all have the outcome [Granted], that is, each of them
    returns without waiting, provided they are at most [maxRequests];
    calls of other categories may come in between. *)
Theorem slot_granted_without_delay e now ws :
  ((ws !! key e = None ∨ ∃ w, ws !! key e = Some w ∧ resetTime w ≤ now) →
   waitForSlot e now ws =
     (<[key e := {| requests := 1;
                    resetTime := now + windowMs (limits e) |}]> ws,
      Granted)) ∧
  (∀ w, ws !! key e = Some w → now < resetTime w →
        requests w < maxRequests (limits e) →
        waitForSlot e now ws =
          (<[key e := {| requests := requests w + 1;
                         resetTime := resetTime w |}]> ws, Granted)) ∧
  (∀ calls,
     (ws !! key e = None ∨ ∃ w, ws !! key e = Some w ∧ resetTime w ≤ now) →
     Z.of_nat (length (filter (λ c, c.1 = e) ((e, now) :: calls)))
       ≤ maxRequests (limits e) →
     Forall (λ c, c.1 = e → c.2 < now + windowMs (limits e)) calls →
     ∀ j t,
       ((e, now) :: calls) !! j = Some (e, t) →
       (waitForSlot_calls ((e, now) :: calls) ws).2 !! j = Some Granted).
Proof.
  split_and!.
  - apply waitForSlot_fresh.
  - apply waitForSlot_increment.
  - intros calls Hold Hroom Hin j t Hcall.
    destruct (lookup_lt_is_Some_2
                (waitForSlot_calls ((e, now) :: calls) ws).2 j) as [o Hout].
    { rewrite waitForSlot_calls_length. by eapply lookup_lt_Some. }
    rewrite Hout. f_equal. revert Hcall Hout.
    rewrite filter_cons_True in Hroom by done. simpl length in Hroom.
    simpl. rewrite waitForSlot_fresh by done.
    destruct (waitForSlot_calls calls _) as [ws2 os] eqn:Hcalls. simpl.
    destruct j as [| j]; simpl.
    + by intros _ [= <-].
    + intros Hj Ho. change os with (ws2, os).2 in Ho. rewrite <- Hcalls in Ho.
      eapply calls_granted_in_window;
        [apply lookup_insert_eq | | | | exact Hj | exact Ho];
        [done | simpl; lia | done].
Qed.

(** What holds of the call [i] from the moment it went to sleep until
    [reset]: it is still asleep, or the clock has reached [reset]; and it
    was not admitted before [reset]. *)
Lemma asleep_exec i e reset k (old : list Grant) ev s s' :
  (tasks s !! i = Some (Sleeping e reset k) ∨ reset ≤ clock s) →
  (∀ g, g ∈ grants s → g_task g = i → g ∈ old ∨ reset ≤ g_time g) →
  exec ev s = Some s' →
  (tasks s' !! i = Some (Sleeping e reset k) ∨ reset ≤ clock s') ∧
  (∀ g, g ∈ grants s' → g_task g = i → g ∈ old ∨ reset ≤ g_time g).
Proof.
  intros Hstate Hgrants Hexec.
  destruct ev as [d | p | j | j | j o]; simpl in Hexec.
  - case_bool_decide; simplify_eq. simpl. split; [| done].
    destruct Hstate; [by left | right; lia].
  - simplify_eq. simpl. split; [| done].
    destruct Hstate as [Hi |]; [left | by right].
    by apply lookup_app_l_Some.
  - destruct (tasks s !! j) as [[[| | e0 k0 |] |] |] eqn:Hj; try done.
    destruct (waitForSlot e0 (clock s) (windows s)) as [ws [| waitTime]];
      simplify_eq; simpl.
    + destruct (decide (j = i)) as [-> | Hne].
      * destruct Hstate as [Hi |]; [congruence |]. split; [by right |].
        intros g [-> | Hin]%elem_of_cons Hg; [by right | by apply Hgrants].
      * split.
        -- destruct Hstate; [left | by right].
           by rewrite list_lookup_insert_ne.
        -- intros g [-> | Hin]%elem_of_cons Hg; [done | by apply Hgrants].
    + split; [| done]. destruct Hstate as [Hi |]; [left | by right].
      destruct (decide (j = i)) as [-> | Hne]; [congruence |].
      by rewrite list_lookup_insert_ne.
  - destruct (tasks s !! j) as [[| e0 wakeAt k0] |] eqn:Hj; try done.
    case_bool_decide; simplify_eq. simpl. split; [| done].
    destruct Hstate as [Hi |]; [| by right].
    destruct (decide (j = i)) as [-> | Hne].
    + right. congruence.
    + left. by rewrite list_lookup_insert_ne.
  - destruct (tasks s !! j) as [[[| | |] |] |] eqn:Hj; try done.
    simplify_eq. simpl. split; [| done].
    destruct Hstate as [Hi |]; [left | by right].
    destruct (decide (j = i)) as [-> | Hne]; [congruence |].
    by rewrite list_lookup_insert_ne.
Qed.

Lemma asleep_run i e reset k (old : list Grant) es s s' :
  (tasks s !! i = Some (Sleeping e reset k) ∨ reset ≤ clock s) →
  (∀ g, g ∈ grants s → g_task g = i → g ∈ old ∨ reset ≤ g_time g) →
  run es s = Some s' →
  (tasks s' !! i = Some (Sleeping e reset k) ∨ reset ≤ clock s') ∧
  (∀ g, g ∈ grants s' → g_task g = i → g ∈ old ∨ reset ≤ g_time g).
Proof.
  intros Hstate Hgrants.
  apply (run_invariant
           (λ s, (tasks s !! i = Some (Sleeping e reset k) ∨ reset ≤ clock s) ∧
                 (∀ g, g ∈ grants s → g_task g = i →
                       g ∈ old ∨ reset ≤ g_time g))); [| done].
  intros ev s0 s1 [? ?]. by apply asleep_exec.
Qed.

(** What holds of the category [e] from the moment its window [w] is live
    and full until that window ends: the window is as it was, or the clock
    has reached [resetTime w]; and no call of the category was admitted
    before [resetTime w].  Neither depends on when timers fire. *)
Lemma full_exec e w (old : list Grant) ev s s' :
  maxRequests (limits e) ≤ requests w →
  (windows s !! key e = Some w ∨ resetTime w ≤ clock s) →
  (∀ g, g ∈ grants s → g_endpoint g = e →
        g ∈ old ∨ resetTime w ≤ g_time g) →
  exec ev s = Some s' →
  (windows s' !! key e = Some w ∨ resetTime w ≤ clock s') ∧
  (∀ g, g ∈ grants s' → g_endpoint g = e →
        g ∈ old ∨ resetTime w ≤ g_time g).
Proof.
  intros Hfull Hstate Hgrants Hexec.
  destruct ev as [d | p | j | j | j o]; simpl in Hexec.
  - case_bool_decide; simplify_eq. simpl. split; [| done].
    destruct Hstate; [| right; lia].
    destruct (decide (resetTime w ≤ clock s + d)); [by right | by left].
  - by simplify_eq.
  - destruct (tasks s !! j) as [[[| | e0 k0 |] |] |]; try done.
    destruct (decide (resetTime w ≤ clock s)) as [Hlate | Hearly].
    { destruct (waitForSlot e0 (clock s) (windows s)) as [ws [| waitTime]];
        simplify_eq; simpl; (split; [by right |]); [| done].
      intros g [-> | Hin]%elem_of_cons Hg; [by right | by apply Hgrants]. }
    destruct Hstate as [Hlook |]; [| done].
    destruct (decide (e0 = e)) as [-> | Hne].
    + rewrite (waitForSlot_exhausted e (clock s) (windows s) w) in Hexec
        by (done || lia).
      simplify_eq. simpl. by split; [left |].
    + pose proof (waitForSlot_other e0 e (clock s) (windows s) Hne) as Hsame.
      destruct (waitForSlot e0 (clock s) (windows s)) as [ws [| waitTime]];
        simplify_eq; simpl in *; (split; [left; congruence |]); [| done].
      intros g [-> | Hin]%elem_of_cons Hg; [done | by apply Hgrants].
  - destruct (tasks s !! j) as [[| e0 wakeAt k0] |]; try done.
    case_bool_decide; by simplify_eq.
  - destruct (tasks s !! j) as [[[| | |] |] |]; try done.
    by simplify_eq.
Qed.

Lemma full_run e w (old : list Grant) es s s' :
  maxRequests (limits e) ≤ requests w →
  (windows s !! key e = Some w ∨ resetTime w ≤ clock s) →
  (∀ g, g ∈ grants s → g_endpoint g = e →
        g ∈ old ∨ resetTime w ≤ g_time g) →
  run es s = Some s' →
  (windows s' !! key e = Some w ∨ resetTime w ≤ clock s') ∧
  (∀ g, g ∈ grants s' → g_endpoint g = e →
        g ∈ old ∨ resetTime w ≤ g_time g).
Proof.
  intros Hfull Hstate Hgrants.
  apply (run_invariant
           (λ s, (windows s !! key e = Some w ∨ resetTime w ≤ clock s) ∧
                 (∀ g, g ∈ grants s → g_endpoint g = e →
                       g ∈ old ∨ resetTime w ≤ g_time g))); [| done].
  intros ev s0 s1 [? ?]. by apply full_exec.
Qed.

(** C3.  Let the call [i] run the body of [waitForSlot] while the window of
    its category is live and full.  Then the window and the admissions are
    left as they were and the call sleeps on a timer that ends at
    [resetTime].  Whatever happens next: as long as the clock is before
    [resetTime] the call is still asleep; every admission of the call
    carries a time that is not before [resetTime]; and so does every
    admission of any call of the category.  When the timer has fired the
    call stands before [waitForSlot] again, as a new call would. *)
Theorem exhausted_window_waits_for_reset s i e k w :
  tasks s !! i = Some (Ready (AwaitSlot e k)) →
  windows s !! key e = Some w →
  clock s < resetTime w →
  maxRequests (limits e) ≤ requests w →
  let asleep :=
    {| clock := clock s; windows := windows s;
       tasks := <[i := Sleeping e (resetTime w) k]> (tasks s);
       grants := grants s |} in
  exec (Check i) s = Some asleep ∧
  (∀ es s',
     run es asleep = Some s' →
     (clock s' < resetTime w →
      tasks s' !! i = Some (Sleeping e (resetTime w) k)) ∧
     (∀ g, g ∈ grants s' → g_task g = i →
           g ∈ grants s ∨ resetTime w ≤ g_time g) ∧
     (∀ g, g ∈ grants s' → g_endpoint g = e →
           g ∈ grants s ∨ resetTime w ≤ g_time g)) ∧
  (∀ s', tasks s' !! i = Some (Sleeping e (resetTime w) k) →
         resetTime w ≤ clock s' →
         exec (Wake i) s' =
           Some {| clock := clock s'; windows := windows s';
                   tasks := <[i := Ready (AwaitSlot e k)]> (tasks s');
                   grants := grants s' |}).
Proof.
  intros Hi Hlook Hnow Hfull asleep. split_and!.
  - simpl. rewrite Hi.
    rewrite (waitForSlot_exhausted e (clock s) (windows s) w) by done.
    unfold asleep. do 3 f_equal. f_equal. lia.
  - intros es s' Hrun.
    destruct (asleep_run i e (resetTime w) k (grants s) es asleep s')
      as [Hstate Hgrants]; [| | done | ].
    { left. simpl. apply list_lookup_insert_eq. by eapply lookup_lt_Some. }
    { intros g Hin _. by left. }
    destruct (full_run e w (grants s) es asleep s' Hfull)
      as [_ Hcategory]; [by left | by left | done |].
    split_and!; [| done | done].
    intros Hbefore. destruct Hstate; [done | lia].
  - intros s' Hi' Hclock. simpl. rewrite Hi'.
    by rewrite bool_decide_eq_true_2.
Qed.

(** [waitForSlot] cannot fail, only delay: a call that stands before it is
    admitted at once, or after one sleep that lasts until the window ends
    when no other call runs in between. *)
Lemma slot_eventually_granted s i e k :
  tasks s !! i = Some (Ready (AwaitSlot e k)) →
  ∃ es s',
    run es s = Some s' ∧
    tasks s' !! i = Some (Ready k) ∧
    ∃ g, grants s' = g :: grants s ∧ g_task g = i ∧ g_endpoint g = e.
Proof.
  intros Hi. pose proof (lookup_lt_Some _ _ _ Hi) as Hlt.
  destruct (waitForSlot_cases e (clock s) (windows s))
    as [[Heq _] | [(w & _ & _ & _ & Heq) | (w & Hlook & Hnow & Hfull & Heq)]].
  - exists [Check i]. eexists. simpl. rewrite Hi, Heq. split; [done |]. simpl.
    split; [by apply list_lookup_insert_eq | by eexists].
  - exists [Check i]. eexists. simpl. rewrite Hi, Heq. split; [done |]. simpl.
    split; [by apply list_lookup_insert_eq | by eexists].
  - exists [Check i; Tick (resetTime w - clock s); Wake i; Check i]. eexists.
    simpl. rewrite Hi, Heq. rewrite bool_decide_eq_true_2 by lia. simpl.
    rewrite list_lookup_insert_eq by done.
    rewrite bool_decide_eq_true_2 by lia. simpl.
    rewrite list_lookup_insert_eq by (by rewrite length_insert).
    rewrite waitForSlot_fresh by (right; exists w; split; [done | lia]).
    split; [done |]. simpl.
    split; [| by eexists].
    apply list_lookup_insert_eq. by rewrite !length_insert.
Qed.

Lemma window_never_exceeds_max_witness :
  ∃ s, run sample_schedule (initial 1000) = Some s ∧
       (∀ w, windows s !! key general = Some w →
             requests w ≤ maxRequests (limits general)) ∧
       (∀ reset,
          Z.of_nat (length (admitted general reset (grants s)))
            ≤ maxRequests (limits general)).
Proof.
  eexists. split; [vm_compute; reflexivity |].
  apply (window_never_exceeds_max 1000 sample_schedule).
  vm_compute; reflexivity.
Defined.

Lemma slot_granted_without_delay_witness :
  waitForSlot general 1000 ∅ =
    (<[key general := {| requests := 1; resetTime := 61000 |}]> ∅, Granted) ∧
  waitForSlot general 2000 (<[key general := sample_window]> ∅) =
    (<[key general := sample_window]> ∅, Suspended 59000) ∧
  waitForSlot general 2000
      (<[key general := {| requests := 4; resetTime := 61000 |}]> ∅) =
    (<[key general := {| requests := 5; resetTime := 61000 |}]>
       (<[key general := {| requests := 4; resetTime := 61000 |}]> ∅),
     Granted) ∧
  (waitForSlot_calls ((general, 1000) :: sample_calls) ∅).2 !! 5%nat =
    Some Granted.
Proof.
  split_and!.
  - apply (proj1 (slot_granted_without_delay general 1000 ∅)). by left.
  - vm_compute; reflexivity.
  - apply (proj1 (proj2 (slot_granted_without_delay general 2000
                           (<[key general := {| requests := 4;
                                                resetTime := 61000 |}]> ∅)))
             {| requests := 4; resetTime := 61000 |});
      [vm_compute; reflexivity | simpl; lia | simpl; lia].
  - apply (proj2 (proj2 (slot_granted_without_delay general 1000 ∅))
             sample_calls) with (t := 60999).
    + by left.
    + vm_compute. discriminate.
    + repeat constructor; simpl; intros; lia.
    + reflexivity.
Defined.

Lemma exhausted_window_waits_for_reset_witness :
  exec (Check 0) sample_full =
    Some {| clock := 1000; windows := windows sample_full;
            tasks := [Sleeping general 61000 (Return JNull)];
            grants := [] |} ∧
  (∀ es s',
     run es {| clock := 1000; windows := windows sample_full;
               tasks := [Sleeping general 61000 (Return JNull)];
               grants := [] |} = Some s' →
     (clock s' < 61000 →
      tasks s' !! 0%nat = Some (Sleeping general 61000 (Return JNull))) ∧
     (∀ g, g ∈ grants s' → g_task g = 0%nat → 61000 ≤ g_time g)).
Proof.
  destruct (exhausted_window_waits_for_reset
              sample_full 0 general (Return JNull) sample_window)
    as (Hcheck & Hlater & _);
    [reflexivity | vm_compute; reflexivity | simpl; lia | simpl; lia |].
  split; [exact Hcheck |].
  intros es s' Hrun. destruct (Hlater es s' Hrun) as (Hasleep & Hgrant & _).
  split; [exact Hasleep |].
  intros g Hin Hg. destruct (Hgrant g Hin Hg) as [Hold | Hge]; [| exact Hge].
  simpl in Hold. by apply elem_of_nil in Hold.
Defined.

End RateLimiter.

(* ===================================================================== *)
(** ** Properties of the classification of paths *)
(* ===================================================================== *)

Section Classification.

Lemma app_String c (s t : string) : String c s +:+ t = String c (s +:+ t).
Proof. reflexivity. Qed.

Lemma prefix_app (needle : string) :
  ∀ haystack,
  String.prefix needle haystack = true ↔ ∃ after, haystack = needle +:+ after.
Proof.
  induction needle as [| c needle IH]; intros haystack; simpl.
  - split; [intros _; by exists haystack | by destruct haystack].
  - destruct haystack as [| c' haystack]; simpl.
    + split; [done | intros [after Heq]; done].
    + destruct (ascii_dec c c') as [-> | Hne].
      * rewrite IH. split; intros [after Heq]; exists after;
          rewrite app_String in *; congruence.
      * split; [done | intros [after Heq]; rewrite app_String in Heq;
                       congruence].
Qed.

Lemma includes_unfold needle haystack :
  includes needle haystack =
    String.prefix needle haystack ||
    match haystack with
    | EmptyString => false
    | String _ rest => includes needle rest
    end.
Proof. by destruct haystack. Qed.

(** [includes] decides the occurrence of the needle. *)
Lemma includes_contains needle haystack :
  includes needle haystack = true ↔ contains needle haystack.
Proof.
  split.
  - induction haystack as [| c rest IH]; rewrite includes_unfold;
      intros [Hpre | Hrec]%orb_true_iff; try done.
    + apply prefix_app in Hpre as [after ->]. by exists "", after.
    + apply prefix_app in Hpre as [after ->]. by exists "", after.
    + destruct (IH Hrec) as (before & after & ->).
      by exists (String c before), after.
  - intros (before & after & ->).
    induction before as [| c before IH]; rewrite includes_unfold.
    + apply orb_true_iff. left. apply prefix_app. by exists after.
    + apply orb_true_iff. right. exact IH.
Qed.

Lemma includes_not_contains needle haystack :
  includes needle haystack = false ↔ ¬ contains needle haystack.
Proof.
  rewrite <- includes_contains. by destruct (includes needle haystack).
Qed.

(** C6.  [getEndpointType] is a function from paths to the three
    categories, so every path has exactly one category; a path in which
    [/search] occurs is in the category [search]; a path in which
    [/save-weblink] occurs and [/search] does not is in the category
    [weblink]; every other path is in the category [general]; and the slot
    that [makeRequest] waits for is the one of the category of its path. *)
Theorem classification_total path :
  (contains "/search" path → getEndpointType path = search) ∧
  (¬ contains "/search" path → contains "/save-weblink" path →
   getEndpointType path = weblink) ∧
  (¬ contains "/search" path → ¬ contains "/save-weblink" path →
   getEndpointType path = general) ∧
  (∀ this options,
     throttled (makeRequest this path options) =
       Some (getEndpointType path)).
Proof.
  unfold getEndpointType. split_and!.
  - intros ->%includes_contains. done.
  - intros ->%includes_not_contains ->%includes_contains. done.
  - intros ->%includes_not_contains ->%includes_not_contains. done.
  - done.
Qed.

Lemma classification_total_witness :
  getEndpointType "/search" = search ∧
  getEndpointType "/save-weblink" = weblink ∧
  getEndpointType "/spaces" = general ∧
  getEndpointType "/space-info?spaceid=/search" = search.
Proof.
  split_and!.
  - apply (proj1 (classification_total "/search")). by exists "", "".
  - apply (proj1 (proj2 (classification_total "/save-weblink"))).
    + apply includes_not_contains. reflexivity.
    + by exists "", "".
  - apply (proj1 (proj2 (proj2 (classification_total "/spaces")))).
    + apply includes_not_contains. reflexivity.
    + apply includes_not_contains. reflexivity.
  - apply (proj1 (classification_total "/space-info?spaceid=/search")).
    by exists "/space-info?spaceid=", "".
Defined.

End Classification.

(* ===================================================================== *)
(** ** Properties of [makeRequest] and of the public methods *)
(* ===================================================================== *)

Section Gateway.

Implicit Types (this : CapacitiesClient) (r : Response) (o : FetchOutcome).

(** [makeRequest], once its slot is granted and [fetch] has settled. *)
Lemma settle_makeRequest this endpoint options o :
  settle o (makeRequest this endpoint options) =
    match o with
    | FetchRejected e => Rejected e
    | FetchResponse r =>
        if ok r then Fulfilled (normalize r)
        else Rejected (ApiError (status_error r))
    end.
Proof.
  destruct o as [r | e]; simpl; [| done].
  unfold handle_response. by destruct (ok r).
Qed.

Lemma settle_bind {A B} (f : A → Async B) (p : Async A) o :
  settle o (p ≫= f) =
    match settle o p with
    | Fulfilled a => settle o (f a)
    | Rejected e => Rejected e
    end.
Proof.
  unfold mbind, Async_mbind.
  induction p as [a | e | endpoint k IH | request k IH]; simpl; auto.
Qed.

Lemma ok_true r : 200 ≤ status r ≤ 299 → ok r = true.
Proof. intros. unfold ok. by rewrite bool_decide_eq_true_2. Qed.

Lemma ok_false r : ¬ 200 ≤ status r ≤ 299 → ok r = false.
Proof. intros. unfold ok. by rewrite bool_decide_eq_false_2. Qed.

(** The message of an [API_ERROR] determines the status. *)
Lemma api_error_message_inj (a b : Z) :
  "API error: " +:+ pretty a = "API error: " +:+ pretty b → a = b.
Proof. intros H. by apply (inj pretty), (inj (String.app "API error: ")). Qed.

(** C4.  Whatever the request and whatever else the response holds, its
    status decides how [makeRequest] settles: 429 rejects with
    [RATE_LIMIT_EXCEEDED]; 401 rejects with [AUTHENTICATION_FAILED]; any
    other status from 400 to 599 rejects with [API_ERROR] and a message
    that ends with the status; a status from 200 to 299 raises nothing and
    fulfils with what the normalisation of the response yields. *)
Theorem status_decides_outcome this endpoint options r :
  let result := settle (FetchResponse r) (makeRequest this endpoint options) in
  (status r = 429 →
   result = Rejected (ApiError (new_CapacitiesAPIError
                                  "RATE_LIMIT_EXCEEDED"
                                  "Rate limit exceeded"))) ∧
  (status r = 401 →
   result = Rejected (ApiError (new_CapacitiesAPIError
                                  "AUTHENTICATION_FAILED"
                                  "Invalid API token"))) ∧
  (400 ≤ status r ≤ 599 → status r ≠ 429 → status r ≠ 401 →
   result = Rejected (ApiError (new_CapacitiesAPIError
                                  "API_ERROR"
                                  ("API error: " +:+ pretty (status r))))) ∧
  (200 ≤ status r ≤ 299 → result = Fulfilled (normalize r)).
Proof.
  intros result. unfold result. rewrite settle_makeRequest.
  unfold status_error. split_and!.
  - intros H. rewrite ok_false by lia. by rewrite bool_decide_eq_true_2.
  - intros H. rewrite ok_false by lia.
    rewrite bool_decide_eq_false_2 by lia. by rewrite bool_decide_eq_true_2.
  - intros H H429 H401. rewrite ok_false by lia.
    by rewrite !bool_decide_eq_false_2.
  - intros H. by rewrite ok_true.
Qed.

Lemma not_json_spec (t : option string) :
  not_json t = true ↔
  t = None ∨ ∃ s, t = Some s ∧ ¬ contains "application/json" s.
Proof.
  destruct t as [s |]; simpl.
  - rewrite negb_true_iff, includes_not_contains. split.
    + intros H. right. by exists s.
    + intros [? | (s' & [= <-] & H)]; done.
  - split; [by left | done].
Qed.

(** The three ways to the success marker, and the way past them. *)
Lemma normalize_marker r :
  contentLength r = Some "0" ∨ not_json (contentType r) = true ∨
  json r = None →
  normalize r = success_marker.
Proof.
  unfold normalize. intros [H | [H | H]].
  - by rewrite bool_decide_eq_true_2.
  - rewrite H. by rewrite orb_true_r.
  - rewrite H. by destruct (_ || _).
Qed.

Lemma normalize_parsed r v :
  contentLength r ≠ Some "0" → not_json (contentType r) = false →
  json r = Some v → normalize r = v.
Proof.
  unfold normalize. intros H0 -> ->. by rewrite bool_decide_eq_false_2.
Qed.

(** C5.  On a response with a status from 200 to 299 [makeRequest] does
    not throw.  It fulfils with [{success: true}] when the
    [content-length] header is [0], when there is no [content-type] header
    or [application/json] does not occur in it, and when [response.json()]
    rejects; otherwise it fulfils with the value that [response.json()]
    yields, whatever that value is. *)
Theorem ok_response_never_throws this endpoint options r :
  200 ≤ status r ≤ 299 →
  let result := settle (FetchResponse r) (makeRequest this endpoint options) in
  (∃ v, result = Fulfilled v) ∧
  (contentLength r = Some "0" ∨
   contentType r = None ∨
   (∃ t, contentType r = Some t ∧ ¬ contains "application/json" t) ∨
   json r = None →
   result = Fulfilled success_marker) ∧
  (∀ t v,
     contentLength r ≠ Some "0" →
     contentType r = Some t → contains "application/json" t →
     json r = Some v →
     result = Fulfilled v).
Proof.
  intros Hok result. unfold result.
  rewrite settle_makeRequest, ok_true by done. split_and!.
  - by eexists.
  - intros H. f_equal. apply normalize_marker.
    rewrite not_json_spec. tauto.
  - intros t v H0 Ht Hjson Hv. f_equal. apply normalize_parsed; [done | | done].
    rewrite Ht. simpl. apply negb_false_iff. by apply includes_contains.
Qed.

(** [settle] is what the event loop computes: a call of [makeRequest] on a
    new client is admitted at once, and when [fetch] settles as [o] the
    call ends as [settle o] says. *)
Lemma makeRequest_on_event_loop this endpoint options o t0 :
  ∃ s,
    run [Spawn (makeRequest this endpoint options); Check 0; Respond 0 o]
        (initial t0) = Some s ∧
    tasks s !! 0%nat =
      Some (Ready match settle o (makeRequest this endpoint options) with
                  | Fulfilled v => Return v
                  | Rejected e => Throw e
                  end).
Proof.
  eexists. split; [reflexivity |]. simpl.
  destruct o as [r | e]; simpl; [| done].
  unfold handle_response. by destruct (ok r).
Qed.

(** The headers of the call: the members of [options.headers] come last
    in the object literal, so [Authorization] is the client's unless
    [options.headers] has a member of that name. *)
Lemma fetch_init_authorization this options :
  headers options !! "Authorization" = None →
  headers (fetch_init this options) !! "Authorization" =
    Some ("Bearer " +:+ apiToken this).
Proof.
  intros Hnone. unfold fetch_init; simpl.
  rewrite lookup_union_r by done. apply lookup_insert_eq.
Qed.

Lemma dispatched_makeRequest this endpoint options :
  dispatched (makeRequest this endpoint options) =
    Some {| url := baseUrl this +:+ endpoint;
            init := fetch_init this options |}.
Proof. done. Qed.

(** The request that each public method hands to [fetch]. *)
Lemma dispatched_invoke this op :
  ∃ endpoint options,
    dispatched (invoke this op) =
      Some {| url := baseUrl this +:+ endpoint;
              init := fetch_init this options |} ∧
    headers options = ∅.
Proof.
  destruct op; simpl; eexists _, _; (split; [reflexivity | done]).
Qed.









(** The escapes of [QuoteJSONString], and the body of a search as it goes
    over the wire. *)
Example quote_escapes :
  QuoteJSONString ("a" +:+ dquote +:+ String (ascii_of_nat 10) "b" +:+
                   String (ascii_of_nat 31) "") =
    dquote +:+ "a" +:+ backslash +:+ dquote +:+ backslash +:+ "nb" +:+
    backslash +:+ "u001f" +:+ dquote.
Proof. reflexivity. Qed.

Example sample_search_body :
  JSON_stringify (search_payload sample_search) =
    Some ("{" +:+ quoted "searchTerm" +:+ ":" +:+ quoted "x" +:+ "," +:+
          quoted "spaceIds" +:+ ":[" +:+ quoted "s1" +:+ "]," +:+
          quoted "mode" +:+ ":" +:+ quoted "fullText" +:+ "}").
Proof. reflexivity. Qed.

(** The text of an array of strings. *)
Lemma SerializeJSONProperty_strings (l : list string) :
  SerializeJSONProperty (strings l) =
    Some (json_array (QuoteJSONString <$> l)).
Proof.
  unfold strings. simpl. do 2 f_equal.
  induction l as [| x l IH]; simpl; [done |]. f_equal. exact IH.
Qed.

Lemma SerializeJSONProperty_members (members : list (string * JSValue)) :
  SerializeJSONProperty (JObj members) =
    Some (json_object
            (omap (λ m, json_member m.1 <$> SerializeJSONProperty m.2)
                  members)).
Proof. done. Qed.

(** C8.  [searchContent] with the query [q], the spaces [s] and no [mode]
    posts to [/search] the text of a JSON object whose members are
    [searchTerm] with the value [q], [spaceIds] with the array [s], [mode]
    with the value [fullText] and, when [structureIds] is supplied and then
    only, [filterStructureIds] with that array; it has no other member. *)
Theorem search_body_fields this q s ids :
  let options :=
    {| query := q; spaceIds := s; mode := None; structureIds := ids |} in
  ∃ request,
    dispatched (searchContent this options) = Some request ∧
    url request = baseUrl this +:+ "/search" ∧
    method (init request) = Some "POST" ∧
    body (init request) =
      Some (json_object
              ([json_member "searchTerm" (QuoteJSONString q);
                json_member "spaceIds" (json_array (QuoteJSONString <$> s));
                json_member "mode" (QuoteJSONString "fullText")] ++
               match ids with
               | Some l =>
                   [json_member "filterStructureIds"
                      (json_array (QuoteJSONString <$> l))]
               | None => []
               end)).
Proof.
  intros options. eexists. split; [reflexivity |]. split_and!; try done.
  cbn [init body fetch_init POST]. unfold JSON_stringify, search_payload.
  rewrite SerializeJSONProperty_members.
  cbn [omap list_omap fst snd query spaceIds mode structureIds options
       optional js_or truthy].
  rewrite !SerializeJSONProperty_strings.
  destruct ids as [l |]; cbn [optional];
    rewrite ?SerializeJSONProperty_strings; reflexivity.
Qed.

(** C9.  [saveWeblink] posts to [/save-weblink] the text of a JSON object
    that always has the member [tags], an array: the tags supplied, and
    the empty array when none are supplied.  Its other members are
    [spaceId] and [url], and [titleOverwrite], [descriptionOverwrite] and
    [mdText] with the values of [title], [description] and [notes], each
    present when the option is supplied. *)
Theorem weblink_body_fields this space link title_ description tags notes :
  let options :=
    {| w_spaceId := space; w_url := link; w_title := title_;
       w_description := description; w_tags := tags; w_notes := notes |} in
  ∃ request,
    dispatched (saveWeblink this options) = Some request ∧
    url request = baseUrl this +:+ "/save-weblink" ∧
    method (init request) = Some "POST" ∧
    body (init request) =
      Some (json_object
              ([json_member "spaceId" (QuoteJSONString space);
                json_member "url" (QuoteJSONString link)] ++
               from_option
                 (λ t, [json_member "titleOverwrite" (QuoteJSONString t)])
                 [] title_ ++
               from_option
                 (λ d, [json_member "descriptionOverwrite"
                          (QuoteJSONString d)])
                 [] description ++
               [json_member "tags"
                  match tags with
                  | Some l => json_array (QuoteJSONString <$> l)
                  | None => "[]"
                  end] ++
               from_option
                 (λ n, [json_member "mdText" (QuoteJSONString n)])
                 [] notes)).
Proof.
  intros options. eexists. split; [reflexivity |]. split_and!; try done.
  cbn [init body fetch_init POST]. unfold JSON_stringify, weblink_payload.
  rewrite SerializeJSONProperty_members.
  cbn [w_spaceId w_url w_title w_description w_tags w_notes options].
  destruct title_, description, tags, notes;
    cbn [omap list_omap fst snd optional js_or truthy strings];
    rewrite ?(SerializeJSONProperty_strings); reflexivity.
Qed.

(** A response that [normalize] turns into the marker leaves the two
    methods that unwrap an envelope with [undefined]. *)
Lemma masked_envelope this options r :
  200 ≤ status r ≤ 299 →
  contentLength r = Some "0" ∨ not_json (contentType r) = true ∨
  json r = None →
  settle (FetchResponse r) (searchContent this options) =
    Fulfilled JUndefined ∧
  settle (FetchResponse r) (getSpaces this) = Fulfilled JUndefined.
Proof.
  intros Hok Hmasked. unfold searchContent, getSpaces.
  rewrite !settle_bind, !settle_makeRequest, ok_true by done.
  by rewrite normalize_marker.
Qed.

(** C10.  There is a response with a status from 200 to 299 on which
    [searchContent] and [getSpaces] fulfil with [undefined], which is not
    an array; so does every such response whose [content-length] is [0],
    whose [content-type] does not hold [application/json], or whose body
    [response.json()] cannot parse. *)
Theorem envelope_unwrap_yields_undefined this options :
  (∃ r,
     200 ≤ status r ≤ 299 ∧
     settle (FetchResponse r) (searchContent this options) =
       Fulfilled JUndefined ∧
     settle (FetchResponse r) (getSpaces this) = Fulfilled JUndefined ∧
     is_array JUndefined = false) ∧
  (∀ r,
     200 ≤ status r ≤ 299 →
     contentLength r = Some "0" ∨ not_json (contentType r) = true ∨
     json r = None →
     settle (FetchResponse r) (searchContent this options) =
       Fulfilled JUndefined ∧
     settle (FetchResponse r) (getSpaces this) = Fulfilled JUndefined).
Proof.
  split.
  - exists {| status := 200; contentType := Some "application/json";
              contentLength := Some "0"; json := None |}.
    split; [simpl; lia |].
    destruct (masked_envelope this options
                {| status := 200; contentType := Some "application/json";
                   contentLength := Some "0"; json := None |})
      as [Hs Hg]; [simpl; lia | by left |].
    by rewrite Hs, Hg.
  - intros r. apply masked_envelope.
Qed.

Lemma status_decides_outcome_witness :
  settle (FetchResponse (sample_response 429))
         (makeRequest sample_client "/search" no_options) =
    Rejected (ApiError (new_CapacitiesAPIError
                          "RATE_LIMIT_EXCEEDED" "Rate limit exceeded")) ∧
  settle (FetchResponse (sample_response 401))
         (makeRequest sample_client "/search" no_options) =
    Rejected (ApiError (new_CapacitiesAPIError
                          "AUTHENTICATION_FAILED" "Invalid API token")) ∧
  settle (FetchResponse (sample_response 503))
         (makeRequest sample_client "/search" no_options) =
    Rejected (ApiError (new_CapacitiesAPIError
                          "API_ERROR" "API error: 503")) ∧
  settle (FetchResponse (sample_response 204))
         (makeRequest sample_client "/search" no_options) =
    Fulfilled success_marker.
Proof.
  split_and!.
  - apply (proj1 (status_decides_outcome sample_client "/search" no_options
                    (sample_response 429))). reflexivity.
  - apply (proj1 (proj2 (status_decides_outcome sample_client "/search"
                           no_options (sample_response 401)))). reflexivity.
  - apply (proj1 (proj2 (proj2 (status_decides_outcome sample_client "/search"
                                  no_options (sample_response 503)))));
      simpl; lia.
  - apply (proj2 (proj2 (proj2 (status_decides_outcome sample_client "/search"
                                  no_options (sample_response 204)))));
      simpl; lia.
Defined.

Lemma ok_response_never_throws_witness :
  settle (FetchResponse (sample_response 204))
         (makeRequest sample_client "/save-weblink" no_options) =
    Fulfilled success_marker ∧
  settle (FetchResponse {| status := 200;
                           contentType := Some "application/json";
                           contentLength := Some "12";
                           json := Some (JObj [("spaces", JArr [])]) |})
         (makeRequest sample_client "/spaces" no_options) =
    Fulfilled (JObj [("spaces", JArr [])]).
Proof.
  split.
  - apply (proj1 (proj2 (ok_response_never_throws sample_client "/save-weblink"
                           no_options (sample_response 204)
                           ltac:(simpl; lia)))).
    by left.
  - pose (r := {| status := 200;
                  contentType := Some "application/json";
                  contentLength := Some "12";
                  json := Some (JObj [("spaces", JArr [])]) |}).
    apply (proj2 (proj2 (ok_response_never_throws sample_client "/spaces"
                           no_options r ltac:(simpl; lia)))
             "application/json");
      [done | reflexivity | by exists "", "" | reflexivity].
Defined.

Lemma envelope_unwrap_yields_undefined_witness :
  settle (FetchResponse (sample_response 200))
         (searchContent sample_client sample_search) = Fulfilled JUndefined ∧
  settle (FetchResponse (sample_response 200)) (getSpaces sample_client) =
    Fulfilled JUndefined.
Proof.
  apply (proj2 (envelope_unwrap_yields_undefined sample_client sample_search)
           (sample_response 200)); [simpl; lia | by left].
Defined.

End Gateway.

(* ===================================================================== *)
(** ** Further properties of the rate limiter *)
(* ===================================================================== *)

Section RateLimiterMore.

Implicit Types (e : EndpointType) (ws : gmap string Window) (s : Sys).

(** The lookup of the window after a call of the category itself. *)
Lemma waitForSlot_same_lookup e now ws :
  ∃ w', (waitForSlot e now ws).1 !! key e = Some w' ∧
        (∀ w, ws !! key e = Some w →
              resetTime w < resetTime w' ∨
              (resetTime w = resetTime w' ∧ requests w ≤ requests w')).
Proof.
  destruct (waitForSlot_cases e now ws)
    as [[Heq Hold] | [(w & Hlook & _ & _ & Heq) | (w & Hlook & _ & _ & Heq)]];
    rewrite Heq; simpl.
  - eexists. rewrite lookup_insert_eq. split; [done |]. simpl.
    intros w Hw. pose proof (limits_positive e).
    destruct Hold as [? | (w0 & ? & ?)]; simplify_eq. lia.
  - eexists. rewrite lookup_insert_eq. split; [done |]. simpl.
    intros w0 Hw. simplify_eq. lia.
  - exists w. split; [done |]. intros w0 Hw. simplify_eq. lia.
Qed.

Lemma window_forward_exec e ev s s' w :
  exec ev s = Some s' → windows s !! key e = Some w →
  ∃ w', windows s' !! key e = Some w' ∧
        (resetTime w < resetTime w' ∨
         (resetTime w = resetTime w' ∧ requests w ≤ requests w')).
Proof.
  intros Hexec Hw.
  assert (∃ w', windows s !! key e = Some w' ∧
                (resetTime w < resetTime w' ∨
                 (resetTime w = resetTime w' ∧ requests w ≤ requests w')))
    as Hsame by (exists w; split; [done | lia]).
  destruct ev as [d | p | j | j | j o]; simpl in Hexec.
  - case_bool_decide; by simplify_eq.
  - by simplify_eq.
  - destruct (tasks s !! j) as [[[| | e0 k0 |] |] |]; try done.
    assert (∃ w', (waitForSlot e0 (clock s) (windows s)).1 !! key e = Some w' ∧
              (resetTime w < resetTime w' ∨
               (resetTime w = resetTime w' ∧ requests w ≤ requests w')))
      as Hstep.
    { destruct (decide (e0 = e)) as [-> | Hne].
      - destruct (waitForSlot_same_lookup e (clock s) (windows s))
          as (w' & Hw' & Hmono). exists w'. split; [done |]. by apply Hmono.
      - by rewrite waitForSlot_other. }
    destruct (waitForSlot e0 (clock s) (windows s)) as [ws [| waitTime]];
      by simplify_eq.
  - destruct (tasks s !! j) as [[| e0 wakeAt k0] |]; try done.
    case_bool_decide; by simplify_eq.
  - destruct (tasks s !! j) as [[[| | |] |] |]; try done. by simplify_eq.
Qed.

(** X1.  Once a category has a window it always has one, and along every
    schedule the window only moves forward: its [resetTime] grows, or it
    stays and the counter does not shrink. *)
Theorem window_only_moves_forward e es s s' w :
  run es s = Some s' → windows s !! key e = Some w →
  ∃ w', windows s' !! key e = Some w' ∧
        (resetTime w < resetTime w' ∨
         (resetTime w = resetTime w' ∧ requests w ≤ requests w')).
Proof.
  intros Hrun Hw.
  apply (run_invariant
           (λ s, ∃ w', windows s !! key e = Some w' ∧
                       (resetTime w < resetTime w' ∨
                        (resetTime w = resetTime w' ∧
                         requests w ≤ requests w'))) ) with es s; [| | done].
  - intros ev s0 s1 (w0 & Hw0 & Hmono) Hexec.
    destruct (window_forward_exec e ev s0 s1 w0 Hexec Hw0)
      as (w1 & Hw1 & Hmono1).
    exists w1. split; [done | lia].
  - exists w. split; [done | lia].
Qed.

(** A call reads and writes the window of its own category only. *)
Lemma waitForSlot_local e now ws1 ws2 :
  ws1 !! key e = ws2 !! key e →
  (waitForSlot e now ws1).2 = (waitForSlot e now ws2).2 ∧
  (waitForSlot e now ws1).1 !! key e = (waitForSlot e now ws2).1 !! key e.
Proof.
  intros Heq. unfold waitForSlot. rewrite <- Heq.
  destruct (ws1 !! key e) as [w |] eqn:Hw; simpl.
  - repeat case_bool_decide; simpl; rewrite ?lookup_insert_eq; try done.
    by rewrite Hw.
  - by rewrite !lookup_insert_eq.
Qed.

Lemma calls_local e calls :
  ∀ ws1 ws2,
  ws1 !! key e = ws2 !! key e →
  (filter (λ p, p.1.1 = e) (zip calls (waitForSlot_calls calls ws1).2)).*2 =
    (waitForSlot_calls (filter (λ c, c.1 = e) calls) ws2).2 ∧
  (waitForSlot_calls calls ws1).1 !! key e =
    (waitForSlot_calls (filter (λ c, c.1 = e) calls) ws2).1 !! key e.
Proof.
  induction calls as [| [e' t'] rest IH]; intros ws1 ws2 Heq; [done |].
  simpl waitForSlot_calls at 1 3.
  destruct (waitForSlot e' t' ws1) as [ws1' o1] eqn:Hrun1.
  destruct (waitForSlot_calls rest ws1') as [ws1'' os1] eqn:Hrest1.
  destruct (decide (e' = e)) as [-> | Hne].
  - rewrite (filter_cons_True (λ c, c.1 = e)) by done.
    simpl waitForSlot_calls.
    destruct (waitForSlot e t' ws2) as [ws2' o2] eqn:Hrun2.
    destruct (waitForSlot_calls (filter _ rest) ws2') as [ws2'' os2] eqn:Hrest2.
    destruct (waitForSlot_local e t' ws1 ws2 Heq) as [Ho Hw].
    rewrite Hrun1, Hrun2 in Ho, Hw. simpl in Ho, Hw. subst o2.
    destruct (IH ws1' ws2' Hw) as [IHo IHw].
    rewrite Hrest1, Hrest2 in IHo, IHw. simpl in IHo, IHw.
    simpl. rewrite filter_cons_True by done. rewrite fmap_cons. simpl snd.
    split; [by f_equal | done].
  - rewrite (filter_cons_False (λ c, c.1 = e)) by done.
    pose proof (waitForSlot_other e' e t' ws1 Hne) as Hsame.
    rewrite Hrun1 in Hsame. simpl in Hsame.
    destruct (IH ws1' ws2 ltac:(congruence)) as [IHo IHw].
    rewrite Hrest1 in IHo, IHw. simpl in IHo, IHw.
    simpl. rewrite filter_cons_False by done. done.
Qed.

(** X2.  The budgets are independent: in any sequence of calls, the calls
    of a category have the outcomes, and leave the window, that they would
    have if the calls of the other categories were not made. *)
Theorem budgets_independent e calls ws :
  (filter (λ p, p.1.1 = e) (zip calls (waitForSlot_calls calls ws).2)).*2 =
    (waitForSlot_calls (filter (λ c, c.1 = e) calls) ws).2 ∧
  (waitForSlot_calls calls ws).1 !! key e =
    (waitForSlot_calls (filter (λ c, c.1 = e) calls) ws).1 !! key e.
Proof. by apply calls_local. Qed.

Lemma spaced_initial e t0 : spaced e (initial t0).
Proof.
  unfold spaced. simpl. split_and!.
  - intros w Hw. by rewrite lookup_empty in Hw.
  - intros g Hg. by apply elem_of_nil in Hg.
  - intros g w Hg. by apply elem_of_nil in Hg.
  - intros g1 g2 Hg. by apply elem_of_nil in Hg.
  - intros g Hg. by apply elem_of_nil in Hg.
Qed.

(** An admission of the category [e], seen from the windows in time. *)
Lemma spaced_grant_same e i s ws' ts :
  counted e (windows s) (grants s) → spaced e s →
  waitForSlot e (clock s) (windows s) = (ws', Granted) →
  spaced e {| clock := clock s; windows := ws';
              tasks := ts;
              grants := {| g_task := i; g_endpoint := e; g_time := clock s;
                           g_window := window_reset e ws' |} :: grants s |}.
Proof.
  intros (Hcount & Hlast & _) (Hopen & Hin & Hcur & Hpair & Hfirst) Hrun.
  pose proof (limits_positive e) as [_ HW].
  destruct (waitForSlot_cases e (clock s) (windows s))
    as [[Heq Hold] | [(w & Hlook & Hnow & Hreq & Heq) | (w & _ & _ & _ & Heq)]];
    rewrite Heq in Hrun; simplify_eq.
  - (* a fresh window *)
    set (R := clock s + windowMs (limits e)).
    assert (∀ g, g ∈ grants s → g_endpoint g = e →
                 g_window g + windowMs (limits e) ≤ R) as Hbefore.
    { intros g Hg Hge. destruct (Hlast g Hg Hge) as (w & Hw & Hle).
      destruct Hold as [? | (w' & ? & ?)]; simplify_eq. unfold R. lia. }
    unfold spaced, window_reset. simpl. rewrite lookup_insert_eq. simpl.
    fold R. split_and!.
    + intros w [= <-]. simpl. unfold R. lia.
    + intros g [-> | Hg]%elem_of_cons Hge; simpl; [unfold R; lia | by apply Hin].
    + intros g w [-> | Hg]%elem_of_cons Hge [= <-]; simpl; [by left |].
      right. by apply Hbefore.
    + intros g1 g2 [-> | Hg1]%elem_of_cons [-> | Hg2]%elem_of_cons Hge1 Hge2;
        simpl.
      * by left.
      * right; right. by apply Hbefore.
      * right; left. by apply Hbefore.
      * by apply Hpair.
    + intros g [-> | Hg]%elem_of_cons Hge; simpl.
      * eexists. split; [by left |]. simpl. split_and!; [done | done |].
        unfold R. lia.
      * destruct (Hfirst g Hg Hge) as (g0 & Hg0 & ?). exists g0.
        split; [by right | done].
  - (* the current window *)
    destruct (Hcount w Hlook) as [Hrange Hlen].
    unfold spaced, window_reset. simpl. rewrite lookup_insert_eq. simpl.
    split_and!.
    + intros w' [= <-]. simpl. by apply Hopen.
    + intros g [-> | Hg]%elem_of_cons Hge; simpl; [| by apply Hin].
      specialize (Hopen w Hlook). lia.
    + intros g w' [-> | Hg]%elem_of_cons Hge [= <-]; simpl; [by left |].
      by apply Hcur.
    + intros g1 g2 [-> | Hg1]%elem_of_cons [-> | Hg2]%elem_of_cons Hge1 Hge2;
        simpl.
      * by left.
      * destruct (Hcur g2 w Hg2 Hge2 Hlook); [left | right; right]; lia.
      * destruct (Hcur g1 w Hg1 Hge1 Hlook); [left | right; left]; lia.
      * by apply Hpair.
    + intros g [-> | Hg]%elem_of_cons Hge; simpl.
      * destruct (admitted e (resetTime w) (grants s)) as [| g1 l] eqn:Hadm;
          [simpl in Hlen; lia |].
        assert (g1 ∈ admitted e (resetTime w) (grants s)) as Hg1
          by (rewrite Hadm; left).
        unfold admitted in Hg1.
        apply list_elem_of_filter in Hg1 as [[Hge1 Hgw1] Hg1].
        destruct (Hfirst g1 Hg1 Hge1) as (g0 & Hg0 & Hge0 & Hgw0 & Hgt0).
        exists g0. split; [by right |]. split_and!; [done | lia | lia].
      * destruct (Hfirst g Hg Hge) as (g0 & Hg0 & ?). exists g0.
        split; [by right | done].
Qed.

Lemma spaced_exec e ev s s' :
  counted e (windows s) (grants s) → spaced e s → exec ev s = Some s' →
  spaced e s'.
Proof.
  intros Hcounted Hspaced Hexec.
  destruct ev as [d | p | j | j | j o]; simpl in Hexec.
  - case_bool_decide; simplify_eq.
    destruct Hspaced as (Hopen & Hrest). split; [| exact Hrest].
    intros w Hw. simpl in *. specialize (Hopen w Hw). simpl in Hopen. lia.
  - by simplify_eq.
  - destruct (tasks s !! j) as [[[| | e0 k0 |] |] |]; try done.
    destruct (waitForSlot e0 (clock s) (windows s)) as [ws [| waitTime]] eqn:Hrun;
      simplify_eq.
    + destruct (decide (e0 = e)) as [-> | Hne].
      * by apply spaced_grant_same.
      * pose proof (waitForSlot_other e0 e (clock s) (windows s) Hne) as Hsame.
        rewrite Hrun in Hsame. simpl in Hsame.
        destruct Hspaced as (Hopen & Hin & Hcur & Hpair & Hfirst).
        unfold spaced. simpl. rewrite Hsame. split_and!.
        -- done.
        -- intros g [-> | Hg]%elem_of_cons Hge; [done | by apply Hin].
        -- intros g w [-> | Hg]%elem_of_cons Hge; [done | by apply Hcur].
        -- intros g1 g2 [-> | Hg1]%elem_of_cons [-> | Hg2]%elem_of_cons;
             try done. by apply Hpair.
        -- intros g [-> | Hg]%elem_of_cons Hge; [done |].
           destruct (Hfirst g Hg Hge) as (g0 & Hg0 & ?). exists g0.
           split; [by right | done].
    + apply waitForSlot_suspended in Hrun as ->. exact Hspaced.
  - destruct (tasks s !! j) as [[| e0 wakeAt k0] |]; try done.
    case_bool_decide; by simplify_eq.
  - destruct (tasks s !! j) as [[[| | |] |] |]; try done. by simplify_eq.
Qed.

Lemma spaced_run t0 es s e :
  run es (initial t0) = Some s →
  counted e (windows s) (grants s) ∧ spaced e s.
Proof.
  intros Hrun.
  apply (run_invariant
           (λ s, ∀ e, counted e (windows s) (grants s) ∧ spaced e s))
    with es (initial t0); [| | done].
  - intros ev s0 s1 Hinv Hexec e0. split.
    + eapply counted_exec; [| done]. intros e1. apply Hinv.
    + destruct (Hinv e0). by eapply spaced_exec.
  - intros e0. split; [apply counted_initial | apply spaced_initial].
Qed.

(** Counting with [filter]. *)
Lemma length_filter_le {A} (P Q : A → Prop)
    `{∀ x, Decision (P x)} `{∀ x, Decision (Q x)} (l : list A) :
  (∀ x, x ∈ l → P x → Q x) →
  (length (filter P l) ≤ length (filter Q l))%nat.
Proof.
  induction l as [| x l IH]; intros HPQ; [done |].
  rewrite !filter_cons.
  assert (length (filter P l) ≤ length (filter Q l))%nat
    by (apply IH; intros y Hy; apply HPQ; by right).
  destruct (decide (P x)) as [HP |].
  - rewrite decide_True by (apply HPQ; [by left | done]). simpl. lia.
  - destruct (decide (Q x)); simpl; lia.
Qed.

Lemma length_filter_lt_elem {A} (P Q : A → Prop)
    `{∀ x, Decision (P x)} `{∀ x, Decision (Q x)} (l : list A) x0 :
  (∀ x, x ∈ l → P x → Q x) → x0 ∈ l → Q x0 → ¬ P x0 →
  (length (filter P l) < length (filter Q l))%nat.
Proof.
  induction l as [| x l IH]; intros HPQ Hx0 HQ HnP.
  { by apply elem_of_nil in Hx0. }
  rewrite !filter_cons.
  assert (length (filter P l) ≤ length (filter Q l))%nat as Hle
    by (apply length_filter_le; intros y Hy; apply HPQ; by right).
  apply elem_of_cons in Hx0 as [<- | Hx0].
  - rewrite decide_False, decide_True by done. simpl. lia.
  - assert (length (filter P l) < length (filter Q l))%nat
      by (apply IH; [intros y Hy; apply HPQ; by right | done | done | done]).
    destruct (decide (P x)) as [HP |].
    + rewrite decide_True by (apply HPQ; [by left | done]). simpl. lia.
    + destruct (decide (Q x)); simpl; lia.
Qed.

Lemma length_filter_split {A} (P Q1 Q2 : A → Prop)
    `{∀ x, Decision (P x)} `{∀ x, Decision (Q1 x)} `{∀ x, Decision (Q2 x)}
    (l : list A) :
  (∀ x, x ∈ l → P x → Q1 x ∨ Q2 x) →
  (length (filter P l) ≤
   length (filter (λ x, P x ∧ Q1 x) l) +
   length (filter (λ x, P x ∧ Q2 x) l))%nat.
Proof.
  induction l as [| x l IH]; intros HPQ; [done |].
  rewrite !filter_cons.
  assert (length (filter P l) ≤
          length (filter (λ x, P x ∧ Q1 x) l) +
          length (filter (λ x, P x ∧ Q2 x) l))%nat
    by (apply IH; intros y Hy; apply HPQ; by right).
  destruct (decide (P x)) as [HP |].
  - destruct (HPQ x ltac:(by left) HP).
    + rewrite (decide_True (P := P x ∧ Q1 x)) by done.
      destruct (decide (P x ∧ Q2 x)); simpl; lia.
    + rewrite (decide_True (P := P x ∧ Q2 x)) by done.
      destruct (decide (P x ∧ Q1 x)); simpl; lia.
  - rewrite !decide_False by tauto. done.
Qed.

(** X3.  In a span of time shorter than a window the limiter admits at
    most [2 * maxRequests - 1] calls of a category: the span meets at most
    two windows, and when it meets two it misses the admission that opened
    the first. *)
Theorem admissions_in_short_span t0 es s e a b :
  run es (initial t0) = Some s →
  b - a < windowMs (limits e) →
  Z.of_nat (length (admitted_between e a b (grants s)))
    ≤ 2 * maxRequests (limits e) - 1.
Proof.
  intros Hrun Hshort.
  destruct (spaced_run t0 es s e Hrun)
    as [(_ & _ & Hmax) (_ & Hin & _ & Hpair & Hfirst)].
  pose proof (limits_positive e) as [Hpos HW].
  set (W := windowMs (limits e)) in *.
  set (P := λ g, g_endpoint g = e ∧ a ≤ g_time g ≤ b).
  assert (∀ g, g ∈ grants s → P g → a < g_window g ≤ b + W) as Hrange.
  { intros g Hg [Hge Ht]. specialize (Hin g Hg Hge). lia. }
  (* Two admissions of the span in different windows: the opening of the
     earlier window lies before the span. *)
  assert (∀ g1 g2, g1 ∈ grants s → g2 ∈ grants s → P g1 → P g2 →
            g_window g1 + W ≤ g_window g2 →
            Z.of_nat (length (filter (λ g, P g ∧ g_window g = g_window g1)
                                     (grants s)))
              ≤ maxRequests (limits e) - 1) as Hlow.
  { intros g1 g2 Hg1 Hg2 HP1 HP2 Hlt.
    destruct (Hfirst g1 Hg1 (proj1 HP1)) as (g0 & Hg0 & Hge0 & Hgw0 & Hgt0).
    pose proof (Hin g2 Hg2 (proj1 HP2)) as Hin2. destruct HP2 as [_ Ht2].
    pose proof (length_filter_lt_elem
                  (λ g, P g ∧ g_window g = g_window g1)
                  (λ g, g_endpoint g = e ∧ g_window g = g_window g1)
                  (grants s) g0) as Hlen.
    specialize (Hmax (g_window g1)). unfold admitted in Hmax.
    assert (¬ (P g0 ∧ g_window g0 = g_window g1)) as HnP
      by (intros [[_ Ht0] _]; lia).
    specialize (Hlen ltac:(intros x _ [[? _] ?]; done) Hg0
                     ltac:(done) HnP).
    lia. }
  assert (∀ R, Z.of_nat (length (filter (λ g, P g ∧ g_window g = R)
                                        (grants s)))
                 ≤ maxRequests (limits e)) as Hany.
  { intros R. specialize (Hmax R). unfold admitted in Hmax.
    pose proof (length_filter_le
                  (λ g, P g ∧ g_window g = R)
                  (λ g, g_endpoint g = e ∧ g_window g = R) (grants s)
                  ltac:(intros x _ [[? _] ?]; done)).
    lia. }
  unfold admitted_between. fold P.
  destruct (filter P (grants s)) as [| g1 rest] eqn:Hspan; [simpl; lia |].
  assert (g1 ∈ filter P (grants s)) as Hg1 by (rewrite Hspan; left).
  apply list_elem_of_filter in Hg1 as [HP1 Hg1].
  rewrite <- Hspan.
  destruct (decide (Forall (λ g, g_window g = g_window g1)
                           (filter P (grants s)))) as [Hall | Hsome].
  - (* one window *)
    pose proof (length_filter_le P (λ g, P g ∧ g_window g = g_window g1)
                  (grants s)) as Hle.
    specialize (Hany (g_window g1)).
    assert (∀ x, x ∈ grants s → P x → P x ∧ g_window x = g_window g1) as Hsub.
    { intros x Hx HPx. split; [done |].
      rewrite Forall_forall in Hall. apply Hall.
      by apply list_elem_of_filter. }
    specialize (Hle Hsub). lia.
  - (* two windows *)
    apply not_Forall_Exists in Hsome; [| apply _].
    apply Exists_exists in Hsome as (g2 & Hg2 & Hne). simpl in Hne.
    apply list_elem_of_filter in Hg2 as [HP2 Hg2].
    pose proof (length_filter_split P
                  (λ g, g_window g = g_window g1)
                  (λ g, g_window g = g_window g2) (grants s)) as Hsplit.
    assert (∀ x, x ∈ grants s → P x →
                 g_window x = g_window g1 ∨ g_window x = g_window g2) as Htwo.
    { intros x Hx HPx.
      pose proof (Hrange x Hx HPx). pose proof (Hrange g1 Hg1 HP1).
      pose proof (Hrange g2 Hg2 HP2).
      pose proof (Hpair x g1 Hx Hg1 (proj1 HPx) (proj1 HP1)).
      pose proof (Hpair x g2 Hx Hg2 (proj1 HPx) (proj1 HP2)).
      pose proof (Hpair g1 g2 Hg1 Hg2 (proj1 HP1) (proj1 HP2)).
      lia. }
    specialize (Hsplit Htwo).
    pose proof (Hany (g_window g1)). pose proof (Hany (g_window g2)).
    destruct (Hpair g1 g2 Hg1 Hg2 (proj1 HP1) (proj1 HP2))
      as [Heq | [Hlt | Hlt]]; [congruence | |].
    + pose proof (Hlow g1 g2 Hg1 Hg2 HP1 HP2 Hlt). lia.
    + pose proof (Hlow g2 g1 Hg2 Hg1 HP2 HP1 Hlt). lia.
Qed.

Lemma run_app es1 es2 s :
  run (es1 ++ es2) s = run es1 s ≫= run es2.
Proof.
  revert s. induction es1 as [| ev es1 IH]; intros s; simpl; [done |].
  by destruct (exec ev s).
Qed.

Lemma run_cons_Some ev es s s1 :
  exec ev s = Some s1 → run (ev :: es) s = run es s1.
Proof. intros H. simpl. by rewrite H. Qed.

Lemma run_app_Some es1 es2 s s1 :
  run es1 s = Some s1 → run (es1 ++ es2) s = run es2 s1.
Proof. intros H. by rewrite run_app, H. Qed.

Lemma calls_admitted_live e n :
  ∀ s w,
  windows s !! key e = Some w → clock s < resetTime w →
  requests w + Z.of_nat n ≤ maxRequests (limits e) →
  ∃ s', run (call_and_check e (length (tasks s)) n) s = Some s' ∧
        windows s' !! key e =
          Some {| requests := requests w + Z.of_nat n;
                  resetTime := resetTime w |} ∧
        batch_admitted e n (resetTime w) s s'.
Proof.
  induction n as [| n IH]; intros s w Hw Hnow Hroom.
  - exists s. split; [done |]. split.
    { rewrite Hw. f_equal. destruct w; simpl. f_equal. lia. }
    unfold batch_admitted. split_and!; [done | lia | done | done |].
    exists []. split_and!; [done | done | constructor].
  - simpl call_and_check. simpl run.
    rewrite lookup_app_r by (simpl; lia).
    rewrite Nat.sub_diag. simpl.
    rewrite (waitForSlot_increment e (clock s) (windows s) w) by (done || lia).
    set (s1 := {| clock := clock s; windows := _; tasks := _; grants := _ |}).
    assert (length (tasks s1) = S (length (tasks s))) as Hlen.
    { unfold s1. simpl. rewrite length_insert, length_app. simpl. lia. }
    rewrite <- Hlen.
    destruct (IH s1 {| requests := requests w + 1; resetTime := resetTime w |})
      as (s' & Hrun & Hw' & Hclock & Htasks & Hkeep & Hother & new & Hnew & Hnewlen & Hall).
    { unfold s1. simpl. by rewrite lookup_insert_eq. }
    { done. }
    { simpl. lia. }
    exists s'. split; [done |]. split.
    { rewrite Hw'. simpl. do 2 f_equal. lia. }
    unfold batch_admitted. split_and!.
    + done.
    + rewrite Htasks, Hlen. lia.
    + intros j Hj. rewrite Hkeep by lia. unfold s1. simpl.
      rewrite list_lookup_insert_ne by lia. by rewrite lookup_app_l.
    + intros e' Hne. rewrite Hother by done. unfold s1. simpl.
      apply lookup_insert_ne. intros ?%key_inj. done.
    + exists (new ++ [{| g_task := length (tasks s); g_endpoint := e;
                         g_time := clock s;
                         g_window := window_reset e (windows s1) |}])%list.
      split_and!.
      * rewrite Hnew. unfold s1. simpl. by rewrite <- app_assoc.
      * rewrite length_app. simpl. lia.
      * apply Forall_app. split.
        -- eapply Forall_impl; [exact Hall |].
           intros g (? & ? & ? & Hge). rewrite Hlen in Hge.
           split_and!; [done | done | done | lia].
        -- apply Forall_singleton. simpl. split_and!; try done.
           unfold window_reset, s1. simpl. by rewrite lookup_insert_eq.
Qed.

Lemma calls_admitted_fresh e n s :
  (windows s !! key e = None ∨
   ∃ w, windows s !! key e = Some w ∧ resetTime w ≤ clock s) →
  1 + Z.of_nat n ≤ maxRequests (limits e) →
  ∃ s', run (call_and_check e (length (tasks s)) (S n)) s = Some s' ∧
        windows s' !! key e =
          Some {| requests := 1 + Z.of_nat n;
                  resetTime := clock s + windowMs (limits e) |} ∧
        batch_admitted e (S n) (clock s + windowMs (limits e)) s s'.
Proof.
  intros Hold Hroom. pose proof (limits_positive e) as [_ HW].
  simpl call_and_check. simpl run.
  rewrite lookup_app_r by (simpl; lia).
  rewrite Nat.sub_diag. simpl.
  rewrite (waitForSlot_fresh e (clock s) (windows s)) by done.
  set (s1 := {| clock := clock s; windows := _; tasks := _; grants := _ |}).
  assert (length (tasks s1) = S (length (tasks s))) as Hlen.
  { unfold s1. simpl. rewrite length_insert, length_app. simpl. lia. }
  rewrite <- Hlen.
  destruct (calls_admitted_live e n s1
              {| requests := 1; resetTime := clock s + windowMs (limits e) |})
    as (s' & Hrun & Hw' & Hclock & Htasks & Hkeep & Hother & new & Hnew & Hnewlen & Hall).
  { unfold s1. simpl. by rewrite lookup_insert_eq. }
  { simpl. lia. }
  { simpl. lia. }
  exists s'. split; [done |]. split; [done |].
  unfold batch_admitted. split_and!.
  - done.
  - rewrite Htasks, Hlen. lia.
  - intros j Hj. rewrite Hkeep by lia. unfold s1. simpl.
    rewrite list_lookup_insert_ne by lia. by rewrite lookup_app_l.
  - intros e' Hne. rewrite Hother by done. unfold s1. simpl.
    apply lookup_insert_ne. intros ?%key_inj. done.
  - exists (new ++ [{| g_task := length (tasks s); g_endpoint := e;
                       g_time := clock s;
                       g_window := window_reset e (windows s1) |}])%list.
    split_and!.
    + rewrite Hnew. unfold s1. simpl. by rewrite <- app_assoc.
    + rewrite length_app. simpl. lia.
    + apply Forall_app. split.
      * eapply Forall_impl; [exact Hall |].
        intros g (? & ? & ? & Hge). rewrite Hlen in Hge.
        split_and!; [done | done | done | lia].
      * apply Forall_singleton. simpl. split_and!; try done.
        unfold window_reset, s1. simpl. by rewrite lookup_insert_eq.
Qed.

Lemma windowMs_long e : 1 < windowMs (limits e).
Proof. destruct e; simpl; lia. Qed.

Lemma filter_all {A} (P : A → Prop) `{∀ x, Decision (P x)} (l : list A) :
  Forall P l → filter P l = l.
Proof.
  induction 1 as [| x l HP _ IH]; [done |].
  by rewrite filter_cons_True, IH.
Qed.

Lemma filter_none {A} (P : A → Prop) `{∀ x, Decision (P x)} (l : list A) :
  Forall (λ x, ¬ P x) l → filter P l = [].
Proof.
  induction 1 as [| x l HP _ IH]; [done |].
  by rewrite filter_cons_False, IH.
Qed.

(** X4.  The bound of X3 is reached: whenever the client starts, the burst
    schedule is admitted in full, and [2 * maxRequests - 1] of its calls
    are admitted in the last millisecond of one window and the first
    of the next. *)
Theorem burst_reaches_bound e t0 :
  ∃ s, run (burst_schedule e) (initial t0) = Some s ∧
       Z.of_nat (length (admitted_between e
                           (t0 + windowMs (limits e) - 1)
                           (t0 + windowMs (limits e)) (grants s)))
         = 2 * maxRequests (limits e) - 1.
Proof.
  pose proof (limits_positive e) as [Hpos _].
  pose proof (windowMs_long e) as HW.
  unfold burst_schedule.
  destruct (Z.to_nat (maxRequests (limits e))) as [| m] eqn:Hn; [lia |].
  assert (maxRequests (limits e) = 1 + Z.of_nat m) as Hmax by lia.
  replace (S m - 1)%nat with m by lia.
  (* the call that opens the first window *)
  destruct (calls_admitted_fresh e 0 (initial t0)) as
    (s1 & Hrun1 & Hw1 & Hc1 & Hlen1 & _ & _ & new1 & Hg1 & Hn1 & Hall1);
    [left; apply lookup_empty | lia |].
  change (length (tasks (initial t0))) with 0%nat in Hrun1.
  simpl in Hw1, Hc1, Hlen1, Hg1, Hall1.
  rewrite run_app, Hrun1. simpl.
  rewrite bool_decide_eq_true_2 by lia.
  set (s1' := {| clock := clock s1 + _; windows := windows s1;
                 tasks := tasks s1; grants := grants s1 |}).
  (* the rest of its budget, in its last millisecond *)
  destruct (calls_admitted_live e m s1' _ Hw1) as
    (s2 & Hrun2 & Hw2 & Hc2 & Hlen2 & _ & _ & new2 & Hg2 & Hn2 & Hall2);
    [simpl; lia | simpl; lia |].
  change (tasks s1') with (tasks s1) in Hrun2.
  simpl in Hw2, Hc2, Hlen2, Hg2, Hall2. rewrite Hlen1 in Hrun2.
  rewrite run_app, Hrun2. simpl.
  set (s2' := {| clock := clock s2 + 1; windows := windows s2;
                 tasks := tasks s2; grants := grants s2 |}).
  (* a full budget at the start of the next window *)
  destruct (calls_admitted_fresh e m s2') as
    (s3 & Hrun3 & Hw3 & Hc3 & Hlen3 & _ & _ & new3 & Hg3 & Hn3 & Hall3).
  { right. eexists. split; [exact Hw2 |]. simpl. lia. }
  { lia. }
  change (tasks s2') with (tasks s2) in Hrun3.
  simpl in Hg3, Hall3. rewrite Hlen2, Hlen1 in Hrun3.
  exists s3. split; [exact Hrun3 |].
  rewrite Hg3, Hg2, Hg1. unfold admitted_between.
  rewrite !filter_app, !length_app.
  rewrite (filter_all _ new3), (filter_all _ new2), (filter_none _ new1).
  - rewrite Hn3, Hn2. simpl. lia.
  - eapply Forall_impl; [exact Hall1 |]. simpl. intros g (_ & Ht & _) [_ ?]. lia.
  - eapply Forall_impl; [exact Hall2 |]. simpl. intros g (? & Ht & _).
    split; [done | lia].
  - eapply Forall_impl; [exact Hall3 |]. simpl. intros g (? & Ht & _).
    split; [done | lia].
Qed.

(** One window during which the sleeping call [i] is passed by: at the end
    of the current window as many new calls as the budget allows are made
    and admitted, and when the call [i] wakes up it finds the new window
    full and goes back to sleep. *)
Lemma passed_by_for_a_window s i e k R :
  tasks s !! i = Some (Sleeping e R k) →
  (∃ w, windows s !! key e = Some w ∧ resetTime w = R) →
  clock s ≤ R →
  ∃ es s',
    run es s = Some s' ∧
    tasks s' !! i = Some (Sleeping e (R + windowMs (limits e)) k) ∧
    (∃ w, windows s' !! key e = Some w ∧
          resetTime w = R + windowMs (limits e)) ∧
    clock s' ≤ R + windowMs (limits e) ∧
    ∃ new : list Grant,
      grants s' = (new ++ grants s)%list ∧
      Z.of_nat (length new) = maxRequests (limits e) ∧
      Forall (λ g, g_endpoint g = e ∧ g_task g ≠ i ∧ R ≤ g_time g) new.
Proof.
  intros Hi (w & Hw & HR) Hclock.
  pose proof (limits_positive e) as [Hpos HW].
  pose proof (lookup_lt_Some _ _ _ Hi) as Hlt.
  set (s1 := {| clock := clock s + (R - clock s); windows := windows s;
                tasks := tasks s; grants := grants s |}).
  destruct (Z.to_nat (maxRequests (limits e))) as [| m] eqn:Hn; [lia |].
  destruct (calls_admitted_fresh e m s1) as
    (s2 & Hrun2 & Hw2 & Hc2 & Hlen2 & Hkeep & _ & new & Hg & Hnew & Hall).
  { right. exists w. split; [done |]. simpl. lia. }
  { lia. }
  simpl in Hw2, Hc2, Hlen2, Hkeep, Hg, Hall.
  change (tasks s1) with (tasks s) in Hrun2.
  exists (Tick (R - clock s) ::
          call_and_check e (length (tasks s)) (S m) ++ [Wake i; Check i])%list.
  eexists. split.
  { rewrite (run_cons_Some _ _ _ s1)
      by (simpl; by rewrite bool_decide_eq_true_2 by lia).
    rewrite (run_app_Some _ _ _ s2) by done.
    erewrite run_cons_Some;
      [| simpl; rewrite Hkeep, Hi by done;
         by rewrite bool_decide_eq_true_2 by lia].
    erewrite run_cons_Some; [reflexivity |].
    simpl. rewrite list_lookup_insert_eq by lia.
    by rewrite (waitForSlot_exhausted e (clock s2) (windows s2) _ Hw2)
      by (simpl; lia). }
  simpl. split_and!.
  - rewrite list_lookup_insert_eq by (rewrite length_insert; lia).
    do 2 f_equal. lia.
  - eexists. split; [exact Hw2 |]. simpl. lia.
  - lia.
  - exists new. split_and!; [done | lia |].
    eapply Forall_impl; [exact Hall |]. simpl.
    intros g (? & ? & ? & ?). split_and!; [done | lia | lia].
Qed.

Lemma passed_by_for_windows i e k (n : nat) :
  ∀ s R,
  tasks s !! i = Some (Sleeping e R k) →
  (∃ w, windows s !! key e = Some w ∧ resetTime w = R) →
  clock s ≤ R →
  ∃ es s',
    run es s = Some s' ∧
    tasks s' !! i =
      Some (Sleeping e (R + Z.of_nat n * windowMs (limits e)) k) ∧
    clock s' ≤ R + Z.of_nat n * windowMs (limits e) ∧
    ∃ new : list Grant,
      grants s' = (new ++ grants s)%list ∧
      Z.of_nat (length new) = Z.of_nat n * maxRequests (limits e) ∧
      Forall (λ g, g_endpoint g = e ∧ g_task g ≠ i ∧ R ≤ g_time g) new.
Proof.
  pose proof (limits_positive e) as [Hpos HW].
  induction n as [| n IH]; intros s R Hi Hw Hclock.
  - exists [], s. simpl. split_and!; [done | | lia |].
    + rewrite Hi. do 2 f_equal. lia.
    + exists []. split_and!; [done | simpl; lia | constructor].
  - destruct (passed_by_for_a_window s i e k R Hi Hw Hclock)
      as (es1 & s1 & Hrun1 & Hi1 & Hw1 & Hclock1 & new1 & Hg1 & Hn1 & Hall1).
    destruct (IH s1 _ Hi1 Hw1 Hclock1)
      as (es2 & s2 & Hrun2 & Hi2 & Hclock2 & new2 & Hg2 & Hn2 & Hall2).
    exists (es1 ++ es2)%list, s2. split_and!.
    + rewrite run_app, Hrun1. exact Hrun2.
    + rewrite Hi2. do 2 f_equal. lia.
    + lia.
    + exists (new2 ++ new1)%list. split_and!.
      * rewrite Hg2, Hg1. by rewrite app_assoc.
      * rewrite length_app. lia.
      * apply Forall_app. split; [| done].
        eapply Forall_impl; [exact Hall2 |]. simpl.
        intros g (? & ? & ?). split_and!; [done | done | lia].
Qed.

(** X5.  The limiter is not fair.  A call that finds the window of its
    category full can be passed by for any number of windows: there is a
    schedule that admits [n * maxRequests] later calls of the category, all
    at or after the end of the window the call waited for, while the call
    itself is still asleep. *)
Theorem waiting_call_can_be_passed_by s i e k w (n : nat) :
  tasks s !! i = Some (Ready (AwaitSlot e k)) →
  windows s !! key e = Some w →
  clock s < resetTime w →
  maxRequests (limits e) ≤ requests w →
  ∃ es s',
    run es s = Some s' ∧
    tasks s' !! i =
      Some (Sleeping e (resetTime w + Z.of_nat n * windowMs (limits e)) k) ∧
    ∃ new : list Grant,
      grants s' = (new ++ grants s)%list ∧
      Z.of_nat (length new) = Z.of_nat n * maxRequests (limits e) ∧
      Forall (λ g, g_endpoint g = e ∧ g_task g ≠ i ∧
                   resetTime w ≤ g_time g) new.
Proof.
  intros Hi Hw Hnow Hfull.
  pose proof (lookup_lt_Some _ _ _ Hi) as Hlt.
  set (s0 := {| clock := clock s; windows := windows s;
                tasks := <[i := Sleeping e (resetTime w) k]> (tasks s);
                grants := grants s |}).
  destruct (passed_by_for_windows i e k n s0 (resetTime w))
    as (es & s' & Hrun & Hi' & _ & Hnew).
  { simpl. by apply list_lookup_insert_eq. }
  { by exists w. }
  { simpl. lia. }
  exists (Check i :: es), s'. split_and!; [| done | done].
  simpl. rewrite Hi.
  rewrite (waitForSlot_exhausted e (clock s) (windows s) w) by done.
  replace (clock s + (resetTime w - clock s)) with (resetTime w) by lia.
  exact Hrun.
Qed.

(** X6.  [waitForSlot] cannot fail, only delay, and a call that nobody
    competes with is not delayed for longer than one window: in every
    reachable state, a call that stands before [waitForSlot] has a
    schedule that admits it at a time at most [windowMs] later. *)
Theorem call_admitted_within_a_window t0 es0 s i e k :
  run es0 (initial t0) = Some s →
  tasks s !! i = Some (Ready (AwaitSlot e k)) →
  ∃ es s' g,
    run es s = Some s' ∧
    tasks s' !! i = Some (Ready k) ∧
    grants s' = g :: grants s ∧
    g_task g = i ∧ g_endpoint g = e ∧
    clock s ≤ g_time g ≤ clock s + windowMs (limits e).
Proof.
  intros Hreach Hi. pose proof (lookup_lt_Some _ _ _ Hi) as Hlt.
  destruct (spaced_run t0 es0 s e Hreach) as [_ (Hopen & _)].
  pose proof (limits_positive e) as [_ HW].
  destruct (waitForSlot_cases e (clock s) (windows s))
    as [[Heq _] | [(w & _ & _ & _ & Heq) | (w & Hlook & Hnow & Hfull & Heq)]].
  - exists [Check i]. eexists _, _. simpl. rewrite Hi, Heq.
    split; [done |]. simpl.
    split_and!;
      [by apply list_lookup_insert_eq | done | done | done
      | cbn [g_time]; lia | cbn [g_time]; lia].
  - exists [Check i]. eexists _, _. simpl. rewrite Hi, Heq.
    split; [done |]. simpl.
    split_and!;
      [by apply list_lookup_insert_eq | done | done | done
      | cbn [g_time]; lia | cbn [g_time]; lia].
  - specialize (Hopen w Hlook). simpl in Hopen.
    exists [Check i; Tick (resetTime w - clock s); Wake i; Check i].
    eexists _, _. simpl. rewrite Hi, Heq.
    rewrite bool_decide_eq_true_2 by lia. simpl.
    rewrite list_lookup_insert_eq by done.
    rewrite bool_decide_eq_true_2 by lia. simpl.
    rewrite list_lookup_insert_eq by (by rewrite length_insert).
    rewrite waitForSlot_fresh by (right; exists w; split; [done | lia]).
    split; [done |]. simpl.
    split_and!;
      [| done | done | done | cbn [g_time]; lia | cbn [g_time]; lia].
    apply list_lookup_insert_eq. by rewrite !length_insert.
Qed.

Lemma window_only_moves_forward_witness :
  ∃ s' w',
    run [Check 0; Tick 60000; Wake 0; Check 0] sample_full = Some s' ∧
    windows s' !! key general = Some w' ∧
    (resetTime sample_window < resetTime w' ∨
     (resetTime sample_window = resetTime w' ∧
      requests sample_window ≤ requests w')).
Proof.
  assert (∃ s', run [Check 0; Tick 60000; Wake 0; Check 0] sample_full
                = Some s') as [s' Hrun]
    by (eexists; vm_compute; reflexivity).
  exists s'.
  destruct (window_only_moves_forward general _ _ _ sample_window Hrun)
    as [w' Hw']; [vm_compute; reflexivity |].
  by exists w'.
Defined.

Lemma admissions_in_short_span_witness :
  ∃ s, run (burst_schedule general) (initial 0) = Some s ∧
       Z.of_nat (length (admitted_between general 59999 60000 (grants s)))
         ≤ 9.
Proof.
  assert (∃ s, run (burst_schedule general) (initial 0) = Some s)
    as [s Hrun] by (eexists; vm_compute; reflexivity).
  exists s. split; [done |].
  apply (admissions_in_short_span 0 _ s general 59999 60000 Hrun).
  vm_compute; reflexivity.
Defined.

Lemma waiting_call_can_be_passed_by_witness :
  ∃ es s',
    run es sample_full = Some s' ∧
    tasks s' !! 0%nat = Some (Sleeping general 181000 (Return JNull)) ∧
    ∃ new : list Grant,
      grants s' = (new ++ grants sample_full)%list ∧
      Z.of_nat (length new) = 10 ∧
      Forall (λ g, g_endpoint g = general ∧ g_task g ≠ 0%nat ∧
                   61000 ≤ g_time g) new.
Proof.
  apply (waiting_call_can_be_passed_by sample_full 0 general (Return JNull)
           sample_window 2);
    [reflexivity | vm_compute; reflexivity | simpl; lia | simpl; lia].
Defined.

Lemma call_admitted_within_a_window_witness :
  ∃ es s' g,
    run es sample_waiting = Some s' ∧
    tasks s' !! 0%nat = Some (Ready (Return JNull)) ∧
    grants s' = g :: grants sample_waiting ∧
    g_task g = 0%nat ∧ g_endpoint g = general ∧
    1000 ≤ g_time g ≤ 61000.
Proof.
  apply (call_admitted_within_a_window 1000 [Spawn (slot_call general)]
           sample_waiting 0 general (Return JNull));
    reflexivity.
Defined.

End RateLimiterMore.

(* ===================================================================== *)
(** ** Further properties of the client *)
(* ===================================================================== *)

Section ClientMore.

Implicit Types (this : CapacitiesClient) (r : Response) (o : FetchOutcome).

(** X7.  A public method waits for one slot and then calls [fetch] once,
    whatever the answer: it never calls [fetch] before its slot is granted
    and never asks again.  [getSpaces] and [saveToDailyNote] draw on the
    budget of [general], [searchContent] on that of [search],
    [saveWeblink] on that of [weblink], and [getSpaceInfo] on the one that
    the path with the space id in it is classified as. *)
Theorem public_method_awaits this op answers :
  ∃ request,
    dispatched (invoke this op) = Some request ∧
    awaits_nth answers 0 (invoke this op) =
      [WaitSlot match op with
                | GetSpaces | SaveToDailyNote _ => general
                | SearchContent _ => search
                | SaveWeblink _ => weblink
                | GetSpaceInfo spaceId =>
                    getEndpointType ("/space-info?spaceid=" +:+ spaceId)
                end;
       CallFetch request].
Proof.
  destruct op; eexists; (split; [reflexivity |]); simpl;
    destruct (answers 0%nat) as [r | e]; try reflexivity;
    unfold handle_response; destruct (ok r); try reflexivity;
    simpl; by destruct (normalize r).
Qed.

(** X8.  [saveToDailyNote] posts to [/save-to-daily-note] the text of a
    JSON object with exactly the members [spaceId], [mdText] (the content)
    and [noTimeStamp], which is [true] when the option [noTimestamp] is
    [true] and [false] when it is [false] or omitted. *)
Theorem daily_note_body_fields this space content flag :
  let options :=
    {| d_spaceId := space; d_content := content; d_noTimestamp := flag |} in
  ∃ request,
    dispatched (saveToDailyNote this options) = Some request ∧
    url request = baseUrl this +:+ "/save-to-daily-note" ∧
    method (init request) = Some "POST" ∧
    body (init request) =
      Some (json_object
              [json_member "spaceId" (QuoteJSONString space);
               json_member "mdText" (QuoteJSONString content);
               json_member "noTimeStamp"
                 match flag with
                 | Some true => "true"
                 | _ => "false"
                 end]).
Proof.
  intros options. eexists. split; [reflexivity |]. split_and!; try done.
  cbn [init body fetch_init POST]. unfold JSON_stringify, daily_note_payload.
  rewrite SerializeJSONProperty_members.
  by destruct flag as [[] |].
Qed.

Lemma String_app_head c (s t : string) c' (s' : string) :
  String c s +:+ t = String c' s' → c = c'.
Proof. rewrite app_String. by intros [= ->]. Qed.

(** X9.  Every response whose status is not from 200 to 299, also one
    below 400, makes [makeRequest] reject with a [CapacitiesAPIError]
    without details, and the message tells the statuses apart: two such
    responses give the same message only if they have the same status. *)
Theorem failed_status_is_reported this endpoint options r :
  ¬ 200 ≤ status r ≤ 299 →
  settle (FetchResponse r) (makeRequest this endpoint options) =
    Rejected (ApiError (status_error r)) ∧
  details (status_error r) = JUndefined ∧
  (∀ r', ¬ 200 ≤ status r' ≤ 299 →
         message (status_error r) = message (status_error r') →
         status r = status r').
Proof.
  intros Hr. rewrite settle_makeRequest, ok_false by done.
  split; [done |]. unfold status_error. split.
  - repeat case_bool_decide; done.
  - intros r' Hr'.
    repeat case_bool_decide; simpl; try congruence; intros Heq;
      try (by apply api_error_message_inj);
      first [apply String_app_head in Heq
            | symmetry in Heq; apply String_app_head in Heq]; done.
Qed.

(** X10.  The public methods do not recover from an error and do not
    rewrite it: when [fetch] rejects they reject with its reason, and on a
    response that is not ok they reject with the error of [makeRequest]. *)
Theorem public_method_propagates_errors this op :
  (∀ e, settle (FetchRejected e) (invoke this op) = Rejected e) ∧
  (∀ r, ¬ 200 ≤ status r ≤ 299 →
        settle (FetchResponse r) (invoke this op) =
          Rejected (ApiError (status_error r))).
Proof.
  split.
  - intros e. destruct op; unfold invoke, getSpaces, searchContent,
      getSpaceInfo, saveWeblink, saveToDailyNote;
      rewrite ?settle_bind, !settle_makeRequest; done.
  - intros r Hr. destruct op; unfold invoke, getSpaces, searchContent,
      getSpaceInfo, saveWeblink, saveToDailyNote;
      rewrite ?settle_bind, !settle_makeRequest, ok_false by done; done.
Qed.

(** X11.  What [getSpaces] and [searchContent] make of a JSON body that
    was parsed: from an object they return the member [spaces]
    (respectively [results]), or [undefined] when it has none; on the body
    [null] they reject with a [TypeError], which is not a
    [CapacitiesAPIError]; [getSpaceInfo] returns the body as it is. *)
Theorem parsed_body_unwrapped this options space r payload :
  200 ≤ status r ≤ 299 →
  contentLength r ≠ Some "0" → not_json (contentType r) = false →
  json r = Some payload →
  (∀ members, payload = JObj members →
     settle (FetchResponse r) (getSpaces this) =
       Fulfilled (default JUndefined (find_member "spaces" members)) ∧
     settle (FetchResponse r) (searchContent this options) =
       Fulfilled (default JUndefined (find_member "results" members))) ∧
  (payload = JNull →
     settle (FetchResponse r) (getSpaces this) =
       Rejected (TypeError
                   "Cannot read properties of null (reading 'spaces')") ∧
     settle (FetchResponse r) (searchContent this options) =
       Rejected (TypeError
                   "Cannot read properties of null (reading 'results')")) ∧
  settle (FetchResponse r) (getSpaceInfo this space) = Fulfilled payload.
Proof.
  intros Hok H0 Hjson Hpayload.
  unfold getSpaces, searchContent, getSpaceInfo.
  rewrite !settle_bind, !settle_makeRequest, ok_true by done.
  rewrite (normalize_parsed r payload) by done.
  split_and!; [by intros members -> | by intros -> | done].
Qed.

Lemma failed_status_is_reported_witness :
  settle (FetchResponse (sample_response 304))
         (makeRequest sample_client "/spaces" no_options) =
    Rejected (ApiError (status_error (sample_response 304))) ∧
  details (status_error (sample_response 304)) = JUndefined ∧
  (∀ r', ¬ 200 ≤ status r' ≤ 299 →
         message (status_error (sample_response 304)) =
           message (status_error r') →
         status (sample_response 304) = status r').
Proof. apply failed_status_is_reported. simpl; lia. Defined.

Lemma public_method_propagates_errors_witness :
  settle (FetchResponse (sample_response 500)) (invoke sample_client GetSpaces)
    = Rejected (ApiError (status_error (sample_response 500))).
Proof.
  apply (proj2 (public_method_propagates_errors sample_client GetSpaces)).
  simpl; lia.
Defined.

Lemma parsed_body_unwrapped_witness :
  settle (FetchResponse sample_null) (getSpaces sample_client) =
    Rejected (TypeError "Cannot read properties of null (reading 'spaces')") ∧
  settle (FetchResponse sample_null) (getSpaceInfo sample_client "s1") =
    Fulfilled JNull.
Proof.
  destruct (parsed_body_unwrapped sample_client sample_search "s1"
              sample_null JNull) as (_ & Hnull & Hinfo);
    [simpl; lia | done | vm_compute; reflexivity | reflexivity |].
  split; [exact (proj1 (Hnull eq_refl)) | exact Hinfo].
Defined.

End ClientMore.

(* ===================================================================== *)
(** ** Properties of the validation functions *)
(* ===================================================================== *)

Section Validation.

(** A string matches a sequence of classes when it has one character for
    each class, in the class. *)
Lemma regex_test_Forall2 regex :
  ∀ value,
  regex_test regex value = true →
  Forall2 (λ (class : ascii → bool) c, class c = true)
          regex (list_ascii_of_string value).
Proof.
  induction regex as [| class rest IH]; intros [| c value]; simpl; try done.
  intros [Hc Hrest]%andb_true_iff. constructor; [done | by apply IH].
Qed.

(** The characters that [uuidRegex] lets through: hexadecimal digits and
    the dash.  None of them needs an escape in a JSON string, and none is
    a slash. *)
Lemma uuid_class_plain (c : ascii) :
  hex_class c || dash_class c || version_class c || variant_class c = true →
  quote_char c = String c EmptyString ∧ nat_of_ascii c ≠ 47%nat.
Proof.
  destruct c as [[] [] [] [] [] [] [] []]; vm_compute; intros H;
    (discriminate H || (split; [reflexivity | discriminate])).
Qed.

Lemma uuidRegex_classes :
  Forall (λ class : ascii → bool,
            ∀ c, class c = true →
                 hex_class c || dash_class c || version_class c
                 || variant_class c = true) uuidRegex.
Proof.
  unfold uuidRegex. simpl.
  repeat constructor; intros c ->; rewrite ?orb_true_r; done.
Qed.

Lemma validateUUID_chars value :
  validateUUID value = true →
  String.length value = 36%nat ∧
  Forall (λ c, quote_char c = String c EmptyString ∧
               nat_of_ascii c ≠ 47%nat) (list_ascii_of_string value).
Proof.
  intros H%regex_test_Forall2. split.
  - apply Forall2_length in H. simpl in H.
    clear -H. revert H. generalize 36%nat.
    induction value as [| c value IH]; intros n; simpl.
    + done.
    + destruct n; [done |]. intros [= H]. f_equal. by apply IH.
  - pose proof uuidRegex_classes as Hcls.
    revert H Hcls. generalize uuidRegex. generalize (list_ascii_of_string value).
    intros l regex H. induction H as [| class c regex l Hc _ IH]; intros Hcls.
    + constructor.
    + apply Forall_cons in Hcls as [Hclass Hcls].
      constructor; [| by apply IH]. apply uuid_class_plain. by apply Hclass.
Qed.

Lemma quote_chars_plain value :
  Forall (λ c, quote_char c = String c EmptyString ∧
               nat_of_ascii c ≠ 47%nat) (list_ascii_of_string value) →
  quote_chars value = value.
Proof.
  induction value as [| c value IH]; simpl; [done |].
  intros [[Hc _] Hrest]%Forall_cons. rewrite Hc, IH by done. done.
Qed.

Lemma includes_no_slash needle value :
  Forall (λ c, quote_char c = String c EmptyString ∧
               nat_of_ascii c ≠ 47%nat) (list_ascii_of_string value) →
  includes (String "/" needle) value = false.
Proof.
  induction value as [| c value IH]; [done |].
  cbn [list_ascii_of_string]. intros [[_ Hc] Hrest]%Forall_cons.
  rewrite includes_unfold, IH by done. cbn [String.prefix].
  destruct (ascii_dec "/" c) as [<- | _]; [by destruct Hc | done].
Qed.

Lemma append_assoc (s t u : string) : (s +:+ t) +:+ u = s +:+ (t +:+ u).
Proof. induction s as [| c s IH]; [done |]. by rewrite !app_String, IH. Qed.

Lemma validated_path_general id :
  validateUUID id = true →
  getEndpointType ("/space-info?spaceid=" +:+ id) = general.
Proof.
  intros [_ Hchars]%validateUUID_chars. unfold getEndpointType.
  rewrite !app_String. change ("" +:+ id) with id. simpl.
  by rewrite !includes_no_slash.
Qed.

Lemma validated_nonempty id : validateUUID id = true → id ≠ "".
Proof. by intros H ->. Qed.

(** X12.  An id that [validateUUID] accepts has 36 characters, goes into a
    JSON text as it is, and leaves the path of [getSpaceInfo] in the
    category [general]: the call waits for a slot of [general] and asks
    for [/space-info?spaceid=] followed by the id.  Without the check the
    category depends on the id: one in which [/search] occurs is throttled
    as a search. *)
Theorem validated_space_id this id answers :
  (validateUUID id = true →
   String.length id = 36%nat ∧
   QuoteJSONString id = quoted id ∧
   awaits_nth answers 0 (getSpaceInfo this id) =
     [WaitSlot general;
      CallFetch {| url := baseUrl this +:+ "/space-info?spaceid=" +:+ id;
                   init := fetch_init this no_options |}]) ∧
  (contains "/search" id →
   throttled (getSpaceInfo this id) = Some search).
Proof.
  split.
  - intros Hvalid. destruct (validateUUID_chars id Hvalid) as [Hlen Hchars].
    split; [done |]. split.
    + unfold QuoteJSONString, quoted. by rewrite quote_chars_plain.
    + unfold getSpaceInfo, makeRequest. simpl.
      rewrite validated_path_general by done.
      destruct (answers 0%nat) as [r | e]; [| done].
      unfold handle_response. by destruct (ok r).
  - intros (before & after & ->). unfold getSpaceInfo, makeRequest. simpl.
    f_equal. unfold getEndpointType.
    assert (includes "/search"
              ("/space-info?spaceid=" +:+ before +:+ "/search" +:+ after)
            = true) as ->; [| done].
    apply includes_contains.
    exists ("/space-info?spaceid=" +:+ before), after.
    by rewrite append_assoc.
Qed.

Lemma env_or_nonempty value fallback :
  fallback ≠ "" → env_or value fallback ≠ "".
Proof.
  intros Hf. unfold env_or. destruct value as [v |]; [| done].
  destruct (String.eqb_spec v ""); done.
Qed.

(** X13.  [validateEnvironment] throws exactly when
    [CAPACITIES_API_TOKEN] is unset or empty.  Otherwise it returns that
    token, and a base URL and a log level that are the values of
    [CAPACITIES_API_BASE_URL] and [LOG_LEVEL] when these are set and not
    empty, and [https://api.capacities.io] and [info] otherwise; none of
    the three is empty, so the client that [main] builds from them hands
    to [fetch], in every request, the header [Authorization] with [Bearer]
    and a token that is not empty. *)
Theorem environment_validated env :
  match validateEnvironment env with
  | Rejected e =>
      e = Error "CAPACITIES_API_TOKEN environment variable is required" ∧
      (env !! "CAPACITIES_API_TOKEN" = None ∨
       env !! "CAPACITIES_API_TOKEN" = Some "")
  | Fulfilled cfg =>
      env !! "CAPACITIES_API_TOKEN" = Some (env_apiToken cfg) ∧
      env_apiToken cfg ≠ "" ∧ env_baseUrl cfg ≠ "" ∧ env_logLevel cfg ≠ "" ∧
      env_baseUrl cfg =
        match env !! "CAPACITIES_API_BASE_URL" with
        | Some v => if decide (v = "") then "https://api.capacities.io" else v
        | None => "https://api.capacities.io"
        end ∧
      env_logLevel cfg =
        match env !! "LOG_LEVEL" with
        | Some v => if decide (v = "") then "info" else v
        | None => "info"
        end ∧
      (∀ op, ∃ request,
         dispatched (invoke (client_of cfg) op) = Some request ∧
         headers (init request) !! "Authorization" =
           Some ("Bearer " +:+ env_apiToken cfg))
  end.
Proof.
  unfold validateEnvironment.
  destruct (env !! "CAPACITIES_API_TOKEN") as [t |] eqn:Ht; [| by split; [| left]].
  destruct (String.eqb_spec t "") as [-> | Hne]; [by split; [| right] |].
  simpl. split_and!; try done.
  - by apply env_or_nonempty.
  - by apply env_or_nonempty.
  - unfold env_or. destruct (env !! "CAPACITIES_API_BASE_URL") as [v |]; [| done].
    destruct (String.eqb_spec v ""); by case_decide.
  - unfold env_or. destruct (env !! "LOG_LEVEL") as [v |]; [| done].
    destruct (String.eqb_spec v ""); by case_decide.
  - intros op. set (cfg := {| env_apiToken := t |}).
    destruct (dispatched_invoke (client_of cfg) op)
      as (endpoint & options & -> & Hnone).
    eexists. split; [done |]. simpl init.
    rewrite fetch_init_authorization by (by rewrite Hnone). done.
Qed.

Lemma validated_space_id_witness :
  String.length sample_uuid = 36%nat ∧
  QuoteJSONString sample_uuid = quoted sample_uuid ∧
  awaits_nth no_body 0 (getSpaceInfo sample_client sample_uuid) =
    [WaitSlot general;
     CallFetch {| url := baseUrl sample_client +:+ "/space-info?spaceid=" +:+
                         sample_uuid;
                  init := fetch_init sample_client no_options |}].
Proof.
  apply (proj1 (validated_space_id sample_client sample_uuid no_body)).
  vm_compute; reflexivity.
Defined.

End Validation.

(* ===================================================================== *)
(** ** Properties of the helpers on search results *)
(* ===================================================================== *)

Section Results.

Implicit Types (seen : gset string) (results : list SearchResult).

Lemma deduplicate_from_elem seen results r :
  r ∈ deduplicate_from seen results → r ∈ results ∧ res_id r ∉ seen.
Proof.
  revert seen. induction results as [| x rest IH]; intros seen; simpl.
  { by intros ?%elem_of_nil. }
  case_bool_decide as Hx.
  - intros Hr. destruct (IH _ Hr). split; [by right | done].
  - intros [-> | Hr]%elem_of_cons; [split; [by left | done] |].
    destruct (IH _ Hr) as [? Hn]. split; [by right |].
    intros Hs. apply Hn, elem_of_union. by right.
Qed.

Lemma deduplicate_from_NoDup seen results :
  NoDup (res_id <$> deduplicate_from seen results).
Proof.
  revert seen. induction results as [| x rest IH]; intros seen; simpl.
  { constructor. }
  case_bool_decide as Hx; [apply IH |].
  rewrite fmap_cons. constructor; [| apply IH].
  intros (r & Hid & Hr)%list_elem_of_fmap.
  apply deduplicate_from_elem in Hr as [_ Hr]. set_solver.
Qed.

Lemma deduplicate_from_sublist seen results :
  sublist (deduplicate_from seen results) results.
Proof.
  revert seen. induction results as [| x rest IH]; intros seen; simpl.
  { constructor. }
  case_bool_decide; [apply sublist_cons, IH | apply sublist_skip, IH].
Qed.

Lemma deduplicate_from_covers seen results r :
  r ∈ results →
  res_id r ∈ seen ∨ res_id r ∈ res_id <$> deduplicate_from seen results.
Proof.
  revert seen. induction results as [| x rest IH]; intros seen.
  { by intros ?%elem_of_nil. }
  simpl. intros [-> | Hr]%elem_of_cons.
  - case_bool_decide; [by left | right]. rewrite fmap_cons. by left.
  - case_bool_decide.
    + by apply IH.
    + destruct (IH ({[res_id x]} ∪ seen) Hr) as [[Hx | ?]%elem_of_union | ?].
      * right. rewrite fmap_cons. apply elem_of_singleton in Hx as ->. by left.
      * by left.
      * right. rewrite fmap_cons. by right.
Qed.

(** A list with distinct ids, none of them seen, is left as it is. *)
Lemma deduplicate_from_id seen results :
  NoDup (res_id <$> results) → (∀ r, r ∈ results → res_id r ∉ seen) →
  deduplicate_from seen results = results.
Proof.
  revert seen. induction results as [| x rest IH]; intros seen; simpl; [done |].
  intros [Hx Hrest]%NoDup_cons Hseen.
  rewrite bool_decide_eq_false_2 by (apply Hseen; by left).
  f_equal. apply IH; [done |].
  intros r Hr [Hin | Hin]%elem_of_union.
  - apply elem_of_singleton in Hin. apply Hx. rewrite <- Hin.
    apply list_elem_of_fmap. by exists r.
  - eapply Hseen; [by right | done].
Qed.

(** The results that are kept are those that are the first of their id
    in the input, when the id was not seen before. *)
Lemma deduplicate_from_first seen results r :
  (r ∈ deduplicate_from seen results) ↔
  ((res_id r ∉ seen) ∧
   head (filter (λ x, res_id x = res_id r) results) = Some r).
Proof.
  revert seen. induction results as [| x rest IH]; intros seen; simpl.
  { split; [by intros ?%elem_of_nil | by intros []]. }
  case_bool_decide as Hx.
  - rewrite IH. split; intros [Hr Hfirst]; (split; [done |]).
    + rewrite filter_cons_False; [done |]. intros Heq. by rewrite Heq in Hx.
    + rewrite filter_cons_False in Hfirst; [done |].
      intros Heq. by rewrite Heq in Hx.
  - rewrite elem_of_cons, IH.
    destruct (decide (res_id x = res_id r)) as [Heq | Hne].
    + rewrite filter_cons_True by done. simpl. split.
      * intros [-> | [Hr _]]; [done |].
        exfalso. apply Hr, elem_of_union. left. by apply elem_of_singleton.
      * intros [Hr [= ->]]. by left.
    + rewrite filter_cons_False by done. split.
      * intros [-> | [Hr Hfirst]]; [done |].
        split; [| done]. intros Hs. apply Hr, elem_of_union. by right.
      * intros [Hr Hfirst]. right. split; [| done].
        intros [Hs%elem_of_singleton | Hs]%elem_of_union; [| done].
        by apply Hne.
Qed.

(** X14.  [deduplicateResults] returns results with pairwise different
    ids, in the order of the input and taken from it, with every id of the
    input still present.  Of the results with the same id it keeps the
    first: a result is in the output exactly when it is the first result
    of the input with its id.  It leaves a list without repeated ids as it
    is, so running it twice changes nothing. *)
Theorem deduplicateResults_distinct results :
  NoDup (res_id <$> deduplicateResults results) ∧
  sublist (deduplicateResults results) results ∧
  (∀ r, r ∈ results →
        res_id r ∈ res_id <$> deduplicateResults results) ∧
  (∀ r, (r ∈ deduplicateResults results) ↔
        head (filter (λ x, res_id x = res_id r) results) = Some r) ∧
  (NoDup (res_id <$> results) → deduplicateResults results = results) ∧
  deduplicateResults (deduplicateResults results) =
    deduplicateResults results.
Proof.
  unfold deduplicateResults. split_and!.
  - apply deduplicate_from_NoDup.
  - apply deduplicate_from_sublist.
  - intros r Hr.
    destruct (deduplicate_from_covers ∅ results r Hr); [set_solver | done].
  - intros r. rewrite deduplicate_from_first.
    split; [by intros [] | intros Hfirst].
    split; [apply not_elem_of_empty | done].
  - intros Hnodup. apply deduplicate_from_id; [done | set_solver].
  - apply deduplicate_from_id; [apply deduplicate_from_NoDup | set_solver].
Qed.


End Results.

Section Relevance.

Variable toLowerCase : string → string.

Lemma append_nil_r (s : string) : s +:+ "" = s.
Proof. induction s as [| c s IH]; [done |]. by rewrite app_String, IH. Qed.

Lemma includes_refl s : includes s s = true.
Proof.
  apply includes_contains. exists "", "". by rewrite append_nil_r.
Qed.

Lemma foldl_add {A} (f : A → Z) (l : list A) (z : Z) :
  foldl (λ score x, score + f x) z l = z + foldl (λ score x, score + f x) 0 l.
Proof.
  revert z. induction l as [| x l IH]; intros z; simpl; [lia |].
  rewrite IH, (IH (0 + f x)). lia.
Qed.

Lemma foldl_add_nonneg {A} (f : A → Z) (l : list A) :
  (∀ x, 0 ≤ f x) → 0 ≤ foldl (λ score x, score + f x) 0 l.
Proof.
  intros Hf. induction l as [| x l IH]; simpl; [lia |].
  rewrite foldl_add. specialize (Hf x). lia.
Qed.

(** X15.  The relevance score is at least twice the number of highlights.
    Of two results with the same highlights, one whose title is the query
    up to case scores at least 20 more than one whose title is not, and
    at least 30 more than one whose title does not even contain the
    query. *)
Theorem exact_title_scores_higher a b query :
  let score r := calculateRelevanceScore toLowerCase r query in
  2 * Z.of_nat (length (res_highlights a)) ≤ score a ∧
  (res_highlights a = res_highlights b →
   toLowerCase (res_title a) = toLowerCase query →
   toLowerCase (res_title b) ≠ toLowerCase query →
   score b + 20 ≤ score a ∧
   (includes (toLowerCase query) (toLowerCase (res_title b)) = false →
    score b + 30 = score a)).
Proof.
  intros score. unfold score, calculateRelevanceScore. split.
  - rewrite foldl_add.
    match goal with
    | |- context [foldl ?g 0 ?l] => set (snippets := foldl g 0 l)
    end.
    assert (0 ≤ snippets)
      by (apply (foldl_add_nonneg (λ h, Z.of_nat _)); intros; lia).
    destruct (includes _ _), (String.eqb _ _); lia.
  - intros Hh Ha Hb. rewrite Hh, Ha.
    rewrite includes_refl, String.eqb_refl.
    rewrite (foldl_add _ _ (0 + 10 + 20 + _)).
    rewrite (foldl_add _ _ (_ + Z.of_nat (length (res_highlights b)) * 2)).
    destruct (String.eqb_spec (toLowerCase (res_title b)) (toLowerCase query));
      [done |].
    split.
    + destruct (includes _ _); lia.
    + intros ->. lia.
Qed.

End Relevance.

Section ResultsInstances.

Lemma deduplicateResults_distinct_witness :
  sample_result "a" "first" ∈ deduplicateResults sample_repeated ∧
  (sample_result "a" "second" ∉ deduplicateResults sample_repeated) ∧
  deduplicateResults sample_results = sample_results.
Proof.
  split_and!.
  - apply (proj2 (proj1 (proj2 (proj2 (proj2
             (deduplicateResults_distinct sample_repeated))))
             (sample_result "a" "first"))).
    vm_compute; reflexivity.
  - intros Hin.
    apply (proj1 (proj1 (proj2 (proj2 (proj2
             (deduplicateResults_distinct sample_repeated))))
             (sample_result "a" "second"))) in Hin.
    vm_compute in Hin. discriminate Hin.
  - apply (proj1 (proj2 (proj2 (proj2 (proj2
             (deduplicateResults_distinct sample_results)))))).
    apply (bool_decide_unpack _). vm_compute. exact I.
Defined.

Lemma exact_title_scores_higher_witness :
  calculateRelevanceScore (λ s, s) (sample_result "b" "Rusty things") "Rust"
    + 20
  ≤ calculateRelevanceScore (λ s, s) (sample_result "a" "Rust") "Rust".
Proof.
  apply (proj2 (exact_title_scores_higher (λ s, s)
                  (sample_result "a" "Rust")
                  (sample_result "b" "Rusty things") "Rust"));
    [reflexivity | reflexivity | intros H; discriminate H].
Defined.

End ResultsInstances.

(* ===================================================================== *)
(** ** Properties of the tools *)
(* ===================================================================== *)

Section Tools.

Implicit Types (client : CapacitiesClient) (answers : nat → FetchOutcome).

Lemma settle_nth_bind {A B} (f : A → Async B) (p : Async A) answers n :
  settle_nth answers n (p ≫= f) =
    match settle_nth answers n p with
    | Fulfilled a => settle_nth answers (calls_nth answers n p) (f a)
    | Rejected e => Rejected e
    end.
Proof.
  unfold mbind, Async_mbind. revert n.
  induction p as [a | e | endpoint k IH | request k IH]; intros n; simpl; auto.
Qed.

Lemma awaits_nth_bind {A B} (f : A → Async B) (p : Async A) answers n :
  awaits_nth answers n (p ≫= f) =
    (awaits_nth answers n p ++
     match settle_nth answers n p with
     | Fulfilled a => awaits_nth answers (calls_nth answers n p) (f a)
     | Rejected e => []
     end)%list.
Proof.
  unfold mbind, Async_mbind. revert n.
  induction p as [a | e | endpoint k IH | request k IH]; intros n; simpl;
    auto; by rewrite IH.
Qed.

Lemma settle_nth_catch {A} (h : Exn → Async A) (p : Async A) answers n :
  settle_nth answers n (Async_catch p h) =
    match settle_nth answers n p with
    | Fulfilled a => Fulfilled a
    | Rejected e => settle_nth answers (calls_nth answers n p) (h e)
    end.
Proof.
  revert n.
  induction p as [a | e | endpoint k IH | request k IH]; intros n; simpl; auto.
Qed.

Lemma awaits_nth_catch {A} (h : Exn → Async A) (p : Async A) answers n :
  awaits_nth answers n (Async_catch p h) =
    (awaits_nth answers n p ++
     match settle_nth answers n p with
     | Fulfilled a => []
     | Rejected e => awaits_nth answers (calls_nth answers n p) (h e)
     end)%list.
Proof.
  revert n.
  induction p as [a | e | endpoint k IH | request k IH]; intros n; simpl;
    auto; by rewrite IH.
Qed.

Lemma awaits_nth_sync {A} (p : Async A) answers n :
  is_sync p → awaits_nth answers n p = [].
Proof. by destruct p. Qed.

Lemma is_sync_bind {A B} (f : A → Async B) (p : Async A) :
  is_sync p → (∀ a, is_sync (f a)) → is_sync (p ≫= f).
Proof. destruct p; simpl; try done. Qed.

Lemma is_sync_mapM {A B} (f : A → Async B) (l : list A) :
  (∀ a, is_sync (f a)) → is_sync (Async_mapM f l).
Proof.
  intros Hf. induction l as [| x l IH]; simpl; [done |].
  apply is_sync_bind; [apply Hf |]. intros y.
  apply is_sync_bind; [apply IH | done].
Qed.

Lemma is_sync_get_property name v : is_sync (get_property name v).
Proof. by destruct v. Qed.

Lemma is_sync_to_string v : is_sync (to_string v).
Proof. unfold to_string. by destruct (ToString v). Qed.

Lemma is_sync_property_text name v : is_sync (property_text name v).
Proof.
  apply is_sync_bind; [apply is_sync_get_property |].
  intros a. apply is_sync_to_string.
Qed.

Lemma is_sync_array_map {B} what (f : JSValue → Async B) v :
  (∀ a, is_sync (f a)) → is_sync (array_map what f v).
Proof. intros Hf. destruct v; simpl; try done. by apply is_sync_mapM. Qed.

Lemma is_sync_array_join what sep v : is_sync (array_join what sep v).
Proof. destruct v; simpl; try done. by destruct (mapM _ _). Qed.

(** [makeRequest] with numbered answers. *)
Lemma settle_nth_makeRequest client endpoint options answers n :
  settle_nth answers n (makeRequest client endpoint options) =
    settle (answers n) (makeRequest client endpoint options) ∧
  awaits_nth answers n (makeRequest client endpoint options) =
    [WaitSlot (getEndpointType endpoint);
     CallFetch {| url := baseUrl client +:+ endpoint;
                  init := fetch_init client options |}] ∧
  calls_nth answers n (makeRequest client endpoint options) = S n.
Proof.
  simpl. destruct (answers n) as [r | e]; [| done].
  unfold handle_response. by destruct (ok r).
Qed.

Lemma settle_nth_sync {A} (p : Async A) answers n m :
  is_sync p → settle_nth answers n p = settle_nth answers m p.
Proof. by destruct p. Qed.

Lemma calls_nth_sync {A} (p : Async A) answers n :
  is_sync p → calls_nth answers n p = n.
Proof. by destruct p. Qed.

Lemma is_sync_format_space v : is_sync (format_space v).
Proof.
  unfold format_space.
  repeat (apply is_sync_bind;
          [first [apply is_sync_property_text | apply is_sync_get_property]
          | intros ?]).
  done.
Qed.

(** A [try] around a computation whose awaits are all in its first
    part. *)
Lemma catch_bind_sync {A B} (p : Async A) (f : A → Async B)
    (h : Exn → Async B) answers n :
  (∀ a, is_sync (f a)) → (∀ e, is_sync (h e)) →
  settle_nth answers n (Async_catch (p ≫= f) h) =
    match settle_nth answers n p with
    | Fulfilled a => settle_nth answers 0 (Async_catch (f a) h)
    | Rejected e => settle_nth answers 0 (h e)
    end ∧
  awaits_nth answers n (Async_catch (p ≫= f) h) = awaits_nth answers n p.
Proof.
  intros Hf Hh. unfold mbind, Async_mbind. revert n.
  induction p as [a | e | endpoint k IH | request k IH]; intros n; simpl.
  - specialize (Hf a). destruct (f a) as [b | e | |]; simpl; try done.
    specialize (Hh e). by destruct (h e).
  - specialize (Hh e). by destruct (h e).
  - destruct (IH n) as [-> ->]. done.
  - destruct (IH (answers n) (S n)) as [-> ->]. done.
Qed.

(** [getSpaces] and [getSpaceInfo] with numbered answers. *)
Lemma getSpaces_nth client answers n :
  settle_nth answers n (getSpaces client) =
    settle (answers n) (getSpaces client) ∧
  awaits_nth answers n (getSpaces client) =
    [WaitSlot general; CallFetch (spaces_request client)] ∧
  calls_nth answers n (getSpaces client) = S n.
Proof.
  simpl. destruct (answers n) as [r | e]; [| done].
  unfold handle_response. destruct (ok r); [| done]. simpl.
  by destruct (normalize r).
Qed.

Lemma list_spaces_sync spaces :
  is_sync (lines ← array_map "spaces" format_space spaces;
           Return (text_result
                     ("Your Capacities Spaces:" +:+ nl +:+ nl +:+
                      join (nl +:+ nl) lines))).
Proof.
  apply is_sync_bind; [| done].
  apply is_sync_array_map, is_sync_format_space.
Qed.

(** The lines of a body of [/spaces] that has the declared shape. *)
Lemma format_space_value space :
  format_space (space_value space) =
    Return ("**" +:+ space_title space +:+ "**" +:+ nl +:+
            "ID: " +:+ space_id space +:+ nl +:+
            "Icon: " +:+ icon_val space).
Proof. done. Qed.

Lemma mapM_format_space spaces :
  Async_mapM format_space (space_value <$> spaces) =
    Return ((λ space, "**" +:+ space_title space +:+ "**" +:+ nl +:+
                      "ID: " +:+ space_id space +:+ nl +:+
                      "Icon: " +:+ icon_val space) <$> spaces).
Proof.
  induction spaces as [| space spaces IH]; [done |].
  rewrite !fmap_cons. cbn [Async_mapM].
  by rewrite format_space_value, IH.
Qed.

(** X16.  [list_spaces] makes one request, for [/spaces] on the budget of
    [general], and never throws: it returns a result.  When [getSpaces]
    rejects, the result is an error whose text is
    [Failed to retrieve spaces: ] followed by the message of the error;
    a result that is not an error is only given when the member [spaces]
    of the body was an array; and a body of the declared shape gives the
    list of the spaces, three lines for each. *)
Theorem list_spaces_reports client answers :
  awaits_nth answers 0 (list_spaces client) =
    [WaitSlot general; CallFetch (spaces_request client)] ∧
  ∃ result,
    settle_nth answers 0 (list_spaces client) = Fulfilled result ∧
    (∀ e, settle (answers 0%nat) (getSpaces client) = Rejected e →
          result = error_result
                     ("Failed to retrieve spaces: " +:+ error_text e)) ∧
    (isError result = false →
     ∃ items, settle (answers 0%nat) (getSpaces client) =
                Fulfilled (JArr items)) ∧
    (∀ spaces,
       settle (answers 0%nat) (getSpaces client) =
         Fulfilled (JArr (space_value <$> spaces)) →
       result =
         text_result
           ("Your Capacities Spaces:" +:+ nl +:+ nl +:+
            join (nl +:+ nl)
                 ((λ space, "**" +:+ space_title space +:+ "**" +:+ nl +:+
                            "ID: " +:+ space_id space +:+ nl +:+
                            "Icon: " +:+ icon_val space) <$> spaces))).
Proof.
  unfold list_spaces.
  destruct (catch_bind_sync (getSpaces client) _
              (λ error, Return (error_result
                                  ("Failed to retrieve spaces: " +:+
                                   error_text error)))
              answers 0 list_spaces_sync ltac:(done)) as [Hsettle Hawaits].
  destruct (getSpaces_nth client answers 0) as (Hfirst & Hsteps & _).
  rewrite Hawaits, Hsettle, Hsteps, Hfirst. split; [done |].
  destruct (settle (answers 0%nat) (getSpaces client)) as [spaces | e].
  - destruct spaces as [| | b | z | str | items | members];
      try (eexists; split; [reflexivity |];
           split_and!; [done | done | done]).
    simpl.
    pose proof (is_sync_mapM format_space items is_sync_format_space) as Hsync.
    destruct (Async_mapM format_space items) as [lines | e | |] eqn:Hmap;
      try done; simpl.
    + eexists. split; [done |]. split_and!; [done | by eexists |].
      intros spaces [= ->]. rewrite mapM_format_space in Hmap.
      by simplify_eq.
    + eexists. split; [done |]. split_and!; [done | done |].
      intros spaces [= ->]. by rewrite mapM_format_space in Hmap.
  - eexists. split; [done |]. split_and!; [by intros ? [= ->] | done | done].
Qed.

Lemma getSpaceInfo_nth client id answers n :
  settle_nth answers n (getSpaceInfo client id) =
    settle (answers n) (getSpaceInfo client id) ∧
  awaits_nth answers n (getSpaceInfo client id) =
    [WaitSlot (getEndpointType ("/space-info?spaceid=" +:+ id));
     CallFetch {| url := baseUrl client +:+ "/space-info?spaceid=" +:+ id;
                  init := fetch_init client no_options |}] ∧
  calls_nth answers n (getSpaceInfo client id) = S n.
Proof. apply settle_nth_makeRequest. Qed.

Lemma is_sync_format_structure v : is_sync (format_structure v).
Proof.
  unfold format_structure, format_property, format_collection.
  repeat (apply is_sync_bind;
          [first [apply is_sync_property_text | apply is_sync_get_property
                 | apply is_sync_array_map; intros ?]
          | intros ?]);
    try done;
    repeat (apply is_sync_bind; [apply is_sync_property_text | intros ?]);
    done.
Qed.

Lemma get_space_info_sync spaceInfo :
  is_sync (structures ← get_property "structures" spaceInfo;
           parts ← array_map "spaceInfo.structures" format_structure
                     structures;
           Return (text_result
                     ("Space Information:" +:+ nl +:+ nl +:+
                      join (nl +:+ nl +:+ "---" +:+ nl +:+ nl) parts))).
Proof.
  apply is_sync_bind; [apply is_sync_get_property | intros structures].
  apply is_sync_bind; [| done].
  apply is_sync_array_map, is_sync_format_structure.
Qed.

(** X17.  [get_space_info] checks the id before anything else: an id that
    [validateUUID] rejects makes it throw [Invalid space ID: ] followed by
    the id, without waiting for a slot and without a request.  With an id
    that passes, it makes one request, on the budget of [general], for
    [/space-info?spaceid=] followed by the id, and it returns a result
    whatever the answer: an error with the text
    [Failed to get space info: ] and the message when [getSpaceInfo]
    rejects. *)
Theorem get_space_info_reports client id answers :
  (validateUUID id = false →
   get_space_info client id = Throw (Error ("Invalid space ID: " +:+ id)) ∧
   awaits_nth answers 0 (get_space_info client id) = []) ∧
  (validateUUID id = true →
   awaits_nth answers 0 (get_space_info client id) =
     [WaitSlot general;
      CallFetch {| url := baseUrl client +:+ "/space-info?spaceid=" +:+ id;
                   init := fetch_init client no_options |}] ∧
   ∃ result,
     settle_nth answers 0 (get_space_info client id) = Fulfilled result ∧
     (∀ e, settle (answers 0%nat) (getSpaceInfo client id) = Rejected e →
           result = error_result
                      ("Failed to get space info: " +:+ error_text e))).
Proof.
  unfold get_space_info. split.
  - intros ->. rewrite orb_true_r. done.
  - intros Hvalid. rewrite Hvalid.
    destruct (String.eqb_spec id "") as [-> | _]; [done |]. simpl orb. cbv iota.
    destruct (catch_bind_sync (getSpaceInfo client id) _
                (λ error, Return (error_result
                                    ("Failed to get space info: " +:+
                                     error_text error)))
                answers 0 get_space_info_sync ltac:(done)) as [Hsettle Hawaits].
    destruct (getSpaceInfo_nth client id answers 0) as (Hfirst & Hsteps & _).
    rewrite Hawaits, Hsettle, Hsteps, Hfirst.
    rewrite validated_path_general by done. split; [done |].
    destruct (settle (answers 0%nat) (getSpaceInfo client id))
      as [spaceInfo | e].
    + pose proof (get_space_info_sync spaceInfo) as Hsync.
      match type of Hsync with
      | is_sync ?p => destruct p as [res | e | |]
      end; try done; simpl; eexists; (split; [reflexivity |]); done.
    + eexists. split; [done |]. by intros ? [= ->].
Qed.

Lemma searchContent_raw_nth client query spaceIds mode structureIds answers n :
  settle_nth answers n
    (searchContent_raw client query spaceIds mode structureIds) =
    settle (answers n)
      (searchContent_raw client query spaceIds mode structureIds) ∧
  awaits_nth answers n
    (searchContent_raw client query spaceIds mode structureIds) =
    [WaitSlot search;
     CallFetch
       {| url := baseUrl client +:+ "/search";
          init := fetch_init client
                    (POST (JObj [("searchTerm", query);
                                 ("spaceIds", spaceIds);
                                 ("mode", js_or mode (JStr "fullText"));
                                 ("filterStructureIds", structureIds)])) |}] ∧
  calls_nth answers n
    (searchContent_raw client query spaceIds mode structureIds) = S n.
Proof.
  simpl. destruct (answers n) as [r | e]; [| done].
  unfold handle_response. destruct (ok r); [| done]. simpl.
  by destruct (normalize r).
Qed.

(** A [try] whose handler returns a result never throws. *)
Lemma catch_total {A} (p : Async A) (h : Exn → Async A) answers n :
  (∀ e, ∃ a, h e = Return a) →
  ∃ a, settle_nth answers n (Async_catch p h) = Fulfilled a.
Proof.
  intros Hh. revert n.
  induction p as [a | e | endpoint k IH | request k IH]; intros n; simpl.
  - by eexists.
  - destruct (Hh e) as [a ->]. by eexists.
  - apply IH.
  - apply IH.
Qed.

Lemma is_sync_format_result v : is_sync (format_result v).
Proof.
  unfold format_result, format_highlight.
  apply is_sync_bind; [apply is_sync_get_property | intros hs].
  apply is_sync_bind.
  { apply is_sync_array_map. intros h.
    apply is_sync_bind; [apply is_sync_get_property | intros ?].
    apply is_sync_array_join. }
  intros lines.
  repeat (apply is_sync_bind; [apply is_sync_property_text | intros ?]).
  done.
Qed.

Lemma is_sync_length_is_zero v : is_sync (length_is_zero v).
Proof. by destruct v. Qed.

(** The part of [search_content] after the search. *)
Lemma search_tail_sync query results :
  is_sync
    (empty ← length_is_zero results;
     if (empty : bool) then
       Return (text_result
                 ("No results found for " +:+ dquote +:+ query +:+ dquote))
     else
       match results with
       | JArr items =>
           formatted ← Async_mapM format_result items;
           Return (text_result
                     ("Found " +:+ pretty (length items) +:+
                      " results for " +:+ dquote +:+ query +:+ dquote +:+
                      ":" +:+ nl +:+ nl +:+
                      join (nl +:+ "---" +:+ nl) formatted))
       | _ => Throw (not_callable "results" "map" results)
       end).
Proof.
  apply is_sync_bind; [apply is_sync_length_is_zero | intros [|]]; [done |].
  destruct results; try done.
  apply is_sync_bind; [| done]. apply is_sync_mapM, is_sync_format_result.
Qed.

Lemma search_spaces_sync (space_id : option string) spaces :
  is_sync
    match given space_id with
    | Some id => Return (JArr [JStr id])
    | None =>
        ids ← array_map "spaces" (get_property "id") spaces;
        Return (JArr ids)
    end.
Proof.
  destruct (given space_id); [done |].
  apply is_sync_bind; [| done].
  apply is_sync_array_map, is_sync_get_property.
Qed.

(** X18.  [search_content] checks its arguments first: an empty query, or
    a space id that is given and is not a UUID, makes it throw before it
    waits for a slot or makes a request.  Otherwise it never throws, and
    it always asks for [/spaces] first, on the budget of [general], also
    when a space id is given and the answer is not used.  When that first
    request fails, no search is made and the result is an error with the
    text [Search failed: ] and the message.  When it succeeds and a space
    id is given, the search that follows is the one that [searchContent]
    makes for that space alone, on the budget of [search]: every search
    costs a slot of both budgets. *)
Theorem search_content_reports client query space_id mode objectTypes answers :
  let tool := search_content client query space_id mode objectTypes in
  (query = "" →
   tool = Throw (Error "Query is required and must be a string")) ∧
  (query ≠ "" →
   ∀ id, given space_id = Some id → validateUUID id = false →
         tool = Throw (Error "Invalid space ID format")) ∧
  (query ≠ "" →
   (∀ id, given space_id = Some id → validateUUID id = true) →
   (∃ result,
      settle_nth answers 0 tool = Fulfilled result ∧
      (∀ e, settle (answers 0%nat) (getSpaces client) = Rejected e →
            result = error_result ("Search failed: " +:+ error_text e))) ∧
   (∃ rest,
      awaits_nth answers 0 tool =
        WaitSlot general :: CallFetch (spaces_request client) :: rest ∧
      (∀ e, settle (answers 0%nat) (getSpaces client) = Rejected e →
            rest = []) ∧
      (∀ id spaces,
         given space_id = Some id →
         settle (answers 0%nat) (getSpaces client) = Fulfilled spaces →
         ∃ request,
           dispatched
             (searchContent client
                {| query := query; spaceIds := [id]; mode := mode;
                   structureIds := objectTypes |}) = Some request ∧
           rest = [WaitSlot search; CallFetch request]))).
Proof.
  intros tool. unfold tool, search_content. split_and!.
  - by intros ->.
  - intros Hq id Hid Hinvalid.
    destruct (String.eqb_spec query ""); [done |]. by rewrite Hid, Hinvalid.
  - intros Hq Hvalid.
    destruct (String.eqb_spec query ""); [done |].
    assert (match given space_id with
            | Some id => negb (validateUUID id)
            | None => false
            end = false) as ->.
    { destruct (given space_id) as [id |]; [| done]. by rewrite Hvalid. }
    set (h := λ error : Exn,
                Return (error_result ("Search failed: " +:+ error_text error))).
    destruct (getSpaces_nth client answers 0) as (Hfirst & Hsteps & Hcalls).
    split.
    + match goal with
      | |- ∃ result, settle_nth _ _ (Async_catch ?p _) = _ ∧ _ =>
          destruct (catch_total p h answers 0) as [result Hresult];
            [by eexists |]
      end.
      exists result. split; [exact Hresult |].
      intros e He. rewrite settle_nth_catch, settle_nth_bind in Hresult.
      rewrite Hfirst, He in Hresult. simpl in Hresult. by simplify_eq.
    + rewrite awaits_nth_catch, awaits_nth_bind, settle_nth_bind.
      rewrite Hsteps, Hfirst, Hcalls.
      destruct (settle (answers 0%nat) (getSpaces client)) as [spaces | e].
      * rewrite awaits_nth_bind, settle_nth_bind.
        pose proof (search_spaces_sync space_id spaces) as Hss.
        rewrite (awaits_nth_sync _ answers 1 Hss).
        rewrite (calls_nth_sync _ answers 1 Hss).
        destruct (given space_id) as [id |] eqn:Hgiven.
        -- cbn [settle_nth app].
           rewrite awaits_nth_bind, settle_nth_bind.
           destruct (searchContent_raw_nth client (JStr query)
                       (JArr [JStr id])
                       (js_or (optional (λ m, JStr (SearchMode_string m)) mode)
                              (JStr "fullText"))
                       (optional strings objectTypes) answers 1)
             as (Hsearch & Hsearchsteps & Hsearchcalls).
           rewrite Hsearchsteps, Hsearch, Hsearchcalls.
           eexists. split; [reflexivity |]. split; [done |].
           intros id' spaces' [= <-] [= <-].
           eexists. split; [reflexivity |].
           destruct (settle (answers 1%nat) _) as [results | e]; simpl.
           ++ pose proof (search_tail_sync query results) as Htail.
              rewrite (awaits_nth_sync _ answers 2 Htail).
              match type of Htail with
              | is_sync ?p => destruct p as [res | e | |]
              end; try done; simpl; by destruct mode as [[] |].
           ++ by destruct mode as [[] |].
        -- eexists. split; [reflexivity |]. split; [done |]. done.
      * eexists. split; [reflexivity |]. split; [done |]. done.
Qed.

Lemma handle_response_masked r :
  masked r → handle_response r = Return success_marker.
Proof.
  intros [Hok Hmasked]. unfold handle_response.
  by rewrite ok_true, normalize_marker.
Qed.

(** X19.  The tools take an answer without a body for a failure.  When
    the answers to its requests are responses with a status from 200 to
    299 that [makeRequest] turns into [{success: true}], [list_spaces] and
    [get_space_info] return an error that says that [map] cannot be read
    of [undefined]; so does [search_content] when no space id is given,
    and with a space id it makes the search and then fails on the
    [length] of [undefined]. *)
Theorem empty_answer_reported_as_failure client id query space_id mode
    objectTypes answers :
  (∀ n, ∃ r, answers n = FetchResponse r ∧ masked r) →
  settle_nth answers 0 (list_spaces client) =
    Fulfilled
      (error_result
         ("Failed to retrieve spaces: " +:+
          "Cannot read properties of undefined (reading 'map')")) ∧
  (validateUUID id = true →
   settle_nth answers 0 (get_space_info client id) =
     Fulfilled
       (error_result
          ("Failed to get space info: " +:+
           "Cannot read properties of undefined (reading 'map')"))) ∧
  (query ≠ "" → given space_id = None →
   settle_nth answers 0
     (search_content client query space_id mode objectTypes) =
     Fulfilled
       (error_result
          ("Search failed: " +:+
           "Cannot read properties of undefined (reading 'map')")) ∧
   awaits_nth answers 0
     (search_content client query space_id mode objectTypes) =
     [WaitSlot general; CallFetch (spaces_request client)]) ∧
  (query ≠ "" → given space_id = Some id → validateUUID id = true →
   settle_nth answers 0
     (search_content client query space_id mode objectTypes) =
     Fulfilled
       (error_result
          ("Search failed: " +:+
           "Cannot read properties of undefined (reading 'length')"))).
Proof.
  intros Hanswers.
  destruct (Hanswers 0%nat) as (r0 & Hr0 & Hm0).
  destruct (Hanswers 1%nat) as (r1 & Hr1 & Hm1).
  split_and!.
  - unfold list_spaces, getSpaces, makeRequest. simpl.
    by rewrite Hr0, handle_response_masked.
  - intros Hvalid. unfold get_space_info. rewrite Hvalid.
    destruct (String.eqb_spec id "") as [-> | _]; [done |].
    unfold getSpaceInfo, makeRequest. simpl.
    by rewrite Hr0, handle_response_masked.
  - intros Hq Hgiven. unfold search_content. rewrite Hgiven.
    destruct (String.eqb_spec query ""); [done |].
    unfold getSpaces, makeRequest. simpl.
    by rewrite Hr0, handle_response_masked.
  - intros Hq Hgiven Hvalid. unfold search_content. rewrite Hgiven, Hvalid.
    destruct (String.eqb_spec query ""); [done |].
    unfold getSpaces, searchContent_raw, makeRequest. simpl.
    rewrite Hr0, handle_response_masked by done. simpl.
    by rewrite Hr1, handle_response_masked.
Qed.

Lemma list_spaces_reports_witness :
  ∃ result,
    settle_nth rate_limited 0 (list_spaces sample_client) = Fulfilled result ∧
    result =
      error_result
        ("Failed to retrieve spaces: " +:+
         error_text (ApiError (status_error (sample_response 429)))).
Proof.
  destruct (list_spaces_reports sample_client rate_limited)
    as (_ & result & Hsettle & Herror & _).
  exists result. split; [done |].
  apply Herror. vm_compute; reflexivity.
Defined.

Lemma get_space_info_reports_witness :
  get_space_info sample_client "abc" =
    Throw (Error ("Invalid space ID: " +:+ "abc")) ∧
  awaits_nth rate_limited 0 (get_space_info sample_client "abc") = [].
Proof.
  apply (proj1 (get_space_info_reports sample_client "abc" rate_limited)).
  vm_compute; reflexivity.
Defined.

Lemma search_content_reports_witness :
  search_content sample_client "x" (Some "abc") None None =
    Throw (Error "Invalid space ID format").
Proof.
  apply (proj1 (proj2 (search_content_reports sample_client "x" (Some "abc")
                         None None rate_limited)) ltac:(done) "abc");
    vm_compute; reflexivity.
Defined.

Lemma empty_answer_reported_as_failure_witness :
  settle_nth no_body 0 (list_spaces sample_client) =
    Fulfilled
      (error_result
         ("Failed to retrieve spaces: " +:+
          "Cannot read properties of undefined (reading 'map')")).
Proof.
  refine (proj1 (empty_answer_reported_as_failure sample_client sample_uuid
                   "x" None None None no_body _)).
  intros n. exists (sample_response 200).
  split; [reflexivity |]. split; [simpl; lia | left; reflexivity].
Defined.

End Tools.
